(** * Idempotent release creation: [OrganizationReleasesEndpoint.post]

    A shallow embedding of
    [src/sentry/api/endpoints/organization_releases.py] (the [post]
    handler, lines 105-179) and of the collaborators it calls: the ORM
    managers of [Release], [Project], [ReleaseProject] and [Activity], the
    lock registry [sentry.app.locks] and [sentry.utils.retries].

    The handler is a state-and-exception computation over a [World] that
    holds the database tables, the set of held locks and two journals (lock
    traffic and activity dispatch).  The get-or-create section (lines
    118-142) is additionally given as a small-step machine so that several
    callers can be interleaved at the granularity of one database or lock
    operation. *)

From stdpp Require Import base option list strings gmap.
From Stdlib Require Import ZArith.

Local Open Scope string_scope.
Local Open Scope list_scope.
Local Open Scope nat_scope.

(** ** Data model *)

(** Python [datetime] values, as a timestamp. *)
Definition datetime : Type := Z.

Module Organization.
Record t : Type := mk { id : nat }.
End Organization.

Module Project.
Record t : Type := mk {
  id : nat;
  organization_id : nat;
  slug : string
}.
#[global] Instance eq_dec : EqDecision t.
Proof. solve_decision. Defined.
End Project.

Module Release.
Record t : Type := mk {
  id : nat;
  organization_id : nat;
  version : string;
  ref : option string;
  url : option string;
  owner : option nat;
  date_started : option datetime;
  date_released : option datetime
}.
#[global] Instance eq_dec : EqDecision t.
Proof. solve_decision. Defined.
End Release.

Module ReleaseProject.
Record t : Type := mk {
  project_id : nat;
  release_id : nat
}.
#[global] Instance eq_dec : EqDecision t.
Proof. solve_decision. Defined.
End ReleaseProject.

Module Activity.
(** Only [Activity.RELEASE] is written by this endpoint; rows of other
    types may already be in the table. *)
Inductive kind : Type := RELEASE | OTHER (code : nat).
#[global] Instance kind_eq_dec : EqDecision kind.
Proof. solve_decision. Defined.

Record t : Type := mk {
  type : kind;
  project_id : nat;
  ident : string;
  data_version : string;      (* data = {'version': ...} *)
  datetime_ : datetime
}.
#[global] Instance eq_dec : EqDecision t.
Proof. solve_decision. Defined.
End Activity.

(** [serializer.object]: the validated request payload.  [result.get(k)]
    of an absent key is [None]. *)
Module Result.
Record t : Type := mk {
  version : string;
  ref : option string;
  url : option string;
  owner : option nat;
  dateStarted : option datetime;
  dateReleased : option datetime;
  projects : list string;
  commits : option (list string)
}.
End Result.

(** Exceptions that can travel through the handler. *)
Inductive exn : Type :=
| IntegrityError           (* django.db.IntegrityError *)
| DoesNotExist             (* Release.DoesNotExist *)
| MultipleObjectsReturned  (* Release.MultipleObjectsReturned *)
| LockUnavailable          (* the lock could not be obtained *)
| LockTimeout              (* the retry policy gave up *)
| OperationalError         (* any other database failure *)
| NotificationError.       (* a failed notification dispatch *)

#[global] Instance exn_eq_dec : EqDecision exn.
Proof. solve_decision. Defined.

(** A failure of the storage layer that is not a violated constraint: any
    exception other than [IntegrityError].  Violated constraints are not
    planned, they follow from the tables. *)
Record fault : Type := mkFault {
  raises : exn;
  raises_other : bool_decide (raises ≠ IntegrityError)
}.

(** Lock keys: a key "must uniquely encode (tenant, version)" (spec 4.1), so
    it is kept as the pair itself. *)
Definition lock_key : Type := nat * string.

(** Modelled from the spec: [Release.get_lock_key], of the [Release] model,
    which is not in the source tree; the encoding of spec 4.1. *)
Definition get_lock_key (organization_id : nat) (version : string) : lock_key :=
  (organization_id, version).

(** The lock objects handed out by [locks.get]. *)
Module Lock.
Record t : Type := mk { key : lock_key; duration : nat }.
End Lock.

(** What the lock service has been asked, in order. *)
Inductive lock_event : Type :=
| Acquired (k : lock_key)
| Contended (k : lock_key)
| Released (k : lock_key).

(** What has been emitted and dispatched, in order. *)
Inductive dispatch_event : Type :=
| Emitted (a : Activity.t)       (* Activity.objects.create *)
| Notified (a : Activity.t).     (* activity.send_notification() *)

(** The state the handler runs against. Tables are kept in primary-key
    (insertion) order. [link_faults] and [notify_faults] say for which
    project ids the storage layer, respectively the notification
    dispatcher, is failing, and for the storage layer with which exception:
    the spec speaks of "any other failure during the insert" (4.4) and of
    "dispatch failures for one sub-resource" (4.5), and this is how the
    world produces them. *)
Record World : Type := mkWorld {
  project_table : list Project.t;
  release_table : list Release.t;
  releaseproject_table : list ReleaseProject.t;
  activity_table : list Activity.t;
  commit_table : list (nat * list string);
  held_locks : list lock_key;
  lock_journal : list lock_event;
  dispatch_journal : list dispatch_event;
  link_faults : list (nat * fault);
  notify_faults : list nat
}.

(** Updates of single components of the world; the tables and journals
    are only ever extended at their end. *)
Definition with_release_table (f : list Release.t → list Release.t) (w : World) : World :=
  mkWorld (project_table w) (f (release_table w)) (releaseproject_table w)
    (activity_table w) (commit_table w) (held_locks w) (lock_journal w)
    (dispatch_journal w) (link_faults w) (notify_faults w).

Definition with_releaseproject_table
    (f : list ReleaseProject.t → list ReleaseProject.t) (w : World) : World :=
  mkWorld (project_table w) (release_table w) (f (releaseproject_table w))
    (activity_table w) (commit_table w) (held_locks w) (lock_journal w)
    (dispatch_journal w) (link_faults w) (notify_faults w).

Definition with_activity (a : Activity.t) (w : World) : World :=
  mkWorld (project_table w) (release_table w) (releaseproject_table w)
    (activity_table w ++ [a]) (commit_table w) (held_locks w) (lock_journal w)
    (dispatch_journal w ++ [Emitted a]) (link_faults w) (notify_faults w).

Definition with_notification (a : Activity.t) (w : World) : World :=
  mkWorld (project_table w) (release_table w) (releaseproject_table w)
    (activity_table w) (commit_table w) (held_locks w) (lock_journal w)
    (dispatch_journal w ++ [Notified a]) (link_faults w) (notify_faults w).

(** Several activities and their dispatch events at once. *)
Definition with_dispatch (activities : list Activity.t) (events : list dispatch_event)
    (w : World) : World :=
  mkWorld (project_table w) (release_table w) (releaseproject_table w)
    (activity_table w ++ activities) (commit_table w) (held_locks w) (lock_journal w)
    (dispatch_journal w ++ events) (link_faults w) (notify_faults w).

Definition with_commits (c : nat * list string) (w : World) : World :=
  mkWorld (project_table w) (release_table w) (releaseproject_table w)
    (activity_table w) (commit_table w ++ [c]) (held_locks w) (lock_journal w)
    (dispatch_journal w) (link_faults w) (notify_faults w).

Definition with_locks (f : list lock_key → list lock_key) (e : list lock_event)
    (w : World) : World :=
  mkWorld (project_table w) (release_table w) (releaseproject_table w)
    (activity_table w) (commit_table w) (f (held_locks w)) (lock_journal w ++ e)
    (dispatch_journal w) (link_faults w) (notify_faults w).

(** Restores the database tables of [saved], keeping everything of [now]
    that a database rollback does not undo. *)
Definition rollback (saved now : World) : World :=
  mkWorld (project_table saved) (release_table saved) (releaseproject_table saved)
    (activity_table saved) (commit_table saved) (held_locks now) (lock_journal now)
    (dispatch_journal now) (link_faults now) (notify_faults now).

(** ** The state-and-exception monad *)

Inductive outcome (A : Type) : Type :=
| Return (a : A)
| Raise (e : exn).
Arguments Return {A} a.
Arguments Raise {A} e.

Definition M (A : Type) : Type := World → outcome A * World.

#[global] Instance M_ret : MRet M := λ A a w, (Return a, w).
#[global] Instance M_bind : MBind M := λ A B f m w,
  match m w with
  | (Return a, w') => f a w'
  | (Raise e, w') => (Raise e, w')
  end.

Definition raise {A} (e : exn) : M A := λ w, (Raise e, w).

(** [try: m] with the outcome reified, for [except]/[else] dispatch. *)
Definition try_ {A} (m : M A) : M (outcome A) := λ w,
  let '(o, w') := m w in (Return o, w').

Definition reraise {A} (o : outcome A) : M A :=
  match o with
  | Return a => mret a
  | Raise e => raise e
  end.

(** [with cm: body], where entering [cm] yields the action to run on every
    exit path. *)
Definition with_ {A} (cm : M (M unit)) (body : M A) : M A :=
  on_exit ← cm;
  o ← try_ body;
  _ ← on_exit;
  reraise o.

(** [with transaction.atomic(): m]: a failure undoes the database writes of
    [m]. *)
Definition transaction_atomic {A} (m : M A) : M A := λ w,
  match m w with
  | (Return a, w') => (Return a, w')
  | (Raise e, w') => (Raise e, rollback w w')
  end.

(** ** The collaborators *)

(** *** ORM managers

    The models of [sentry.models] are not in the source tree.  By spec 6
    the storage layer provides point lookup by unique key and inserts that
    enforce a uniqueness constraint, "surfacing a distinguishable conflict
    failure"; by spec 3 the unique keys are [(organization_id, version)]
    for releases and [(release_id, project_id)] for associations. *)

(** [r] is a release of the organization with that version. *)
Definition is_release (organization_id : nat) (version : string) (r : Release.t) : Prop :=
  Release.organization_id r = organization_id ∧ Release.version r = version.

#[global] Instance is_release_dec o v r : Decision (is_release o v r).
Proof. unfold is_release. apply _. Defined.

(** Modelled from the spec: [Project.objects.filter(organization=...,
    slug__in=...)], the lookup of the sub-resources by (tenant, slug). *)
Definition Project_objects_filter (organization_id : nat) (slug__in : list string)
    : M (list Project.t) := λ w,
  (Return (filter (λ p, Project.organization_id p = organization_id
                        ∧ Project.slug p ∈ slug__in) (project_table w)), w).

(** Modelled from the spec:
    [Release.objects.filter(organization_id=..., version=...).first()], the
    point lookup by unique key, [None] when nothing matches. *)
Definition Release_objects_filter_first (organization_id : nat) (version : string)
    : M (option Release.t) := λ w,
  (Return (head (filter (is_release organization_id version) (release_table w))), w).

(** Modelled from the spec:
    [Release.objects.get(version=..., organization_id=...)], the point
    lookup that raises when the row is missing (or not single). *)
Definition Release_objects_get (version : string) (organization_id : nat)
    : M Release.t := λ w,
  match filter (is_release organization_id version) (release_table w) with
  | [] => (Raise DoesNotExist, w)
  | [r] => (Return r, w)
  | _ => (Raise MultipleObjectsReturned, w)
  end.

(** The primary key given to the next release. *)
Definition fresh_release_id (table : list Release.t) : nat :=
  S (max_list (Release.id <$> table)).

(** Modelled from the spec: [Release.objects.create(...)]; the [Release]
    model and its constraints are not in the source tree.  The insert
    enforces the uniqueness of [(organization_id, version)] (spec 3) and
    surfaces a conflict as [IntegrityError] (spec 6). *)
Definition Release_objects_create (organization_id : nat) (version : string)
    (ref url : option string) (owner : option nat)
    (date_started date_released : option datetime) : M Release.t := λ w,
  match filter (is_release organization_id version) (release_table w) with
  | [] =>
      let r := Release.mk (fresh_release_id (release_table w)) organization_id
                 version ref url owner date_started date_released in
      (Return r, with_release_table (λ t, t ++ [r]) w)
  | _ => (Raise IntegrityError, w)
  end.

(** The failure planned for the inserts about [project], if any. *)
Definition link_fault (w : World) (project : Project.t) : option exn :=
  (λ f, raises f.2) <$> head (filter (λ f, f.1 = Project.id project) (link_faults w)).

(** The rows a link of [project] to [release] refers to are stored. *)
Definition referenced (w : World) (release : Release.t) (project : Project.t) : Prop :=
  Project.id project ∈ (Project.id <$> project_table w)
  ∧ Release.id release ∈ (Release.id <$> release_table w).

#[global] Instance referenced_dec w release project :
  Decision (referenced w release project).
Proof. unfold referenced. apply _. Defined.

(** Modelled from the spec:
    [ReleaseProject.objects.create(project=..., release=...)]; the
    [ReleaseProject] model is not in the source tree.  The pair is unique
    (spec 3) and refers to a stored project and a stored release (spec 3:
    the sub-resource is "referenced", the association "owned jointly by
    Release and SubResource"; in the call both are passed as rows).  A
    violation of either constraint is reported by the same
    [IntegrityError], the one class Django has for violated constraints
    (spec 6: "a distinguishable conflict failure"); the insert can also fail
    for another reason ([link_fault]).  What a failed insert leaves behind
    is not said; the model takes the worst case, in which the row is
    written before the failure is raised (a constraint checked at commit, a
    failing save signal), so that undoing it is the work of the transaction
    the insert runs in (spec 6 lists "transactional scoping for a single
    insert" as a service of its own). *)
Definition ReleaseProject_objects_create (project : Project.t) (release : Release.t)
    : M ReleaseProject.t := λ w,
  let rp := ReleaseProject.mk (Project.id project) (Release.id release) in
  let written := with_releaseproject_table (λ t, t ++ [rp]) w in
  match link_fault w project with
  | Some e => (Raise e, written)
  | None =>
      if decide (rp ∈ releaseproject_table w ∨ ¬ referenced w release project)
      then (Raise IntegrityError, written)
      else (Return rp, written)
  end.

(** Modelled from the spec: [Activity.objects.create(...)], the emission of
    one side-effect event; the table is append-only. *)
Definition Activity_objects_create (type : Activity.kind) (project : Project.t)
    (ident : string) (data_version : string) (datetime_ : datetime)
    : M Activity.t := λ w,
  let a := Activity.mk type (Project.id project) ident data_version datetime_ in
  (Return a, with_activity a w).

(** Modelled from the spec: [activity.send_notification()], the downstream
    notification of an event, which can fail. *)
Definition send_notification (activity : Activity.t) : M unit := λ w,
  if decide (Activity.project_id activity ∈ notify_faults w)
  then (Raise NotificationError, w)
  else (Return (), with_notification activity w).

(** Modelled from the spec: [release.set_commits(commit_list)]; commit
    ingestion is an external collaborator (spec 1), recorded here in a
    table of its own. *)
Definition set_commits (release : Release.t) (commit_list : list string) : M unit := λ w,
  (Return (), with_commits (Release.id release, commit_list) w).

(** *** Locks and retries

    [sentry.app.locks] and [sentry.utils.retries] are not in the source
    tree. *)

(** Modelled from the spec: [locks.get(key, duration=...)] of
    [sentry.app.locks], which is not in the source tree; the lock object for
    a key (spec 4.1). *)
Definition locks_get (key : lock_key) (duration : nat) : Lock.t :=
  Lock.mk key duration.

(** Modelled from the spec: the release of the lock on leaving the
    critical section, on every exit path (spec 4.1). *)
Definition Lock_release (lock : Lock.t) : M unit := λ w,
  (Return (),
   with_locks (filter (λ k, k ≠ Lock.key lock)) [Released (Lock.key lock)] w).

(** Modelled from the spec: [lock.acquire] of the lock service, which is not
    in the source tree.  A lock that cannot be obtained fails with
    [LockUnavailable] (spec 4.1), otherwise the result is the releasing
    context manager. *)
Definition Lock_acquire (lock : Lock.t) : M (M unit) := λ w,
  if decide (Lock.key lock ∈ held_locks w)
  then (Raise LockUnavailable, with_locks (λ l, l) [Contended (Lock.key lock)] w)
  else (Return (Lock_release lock),
        with_locks (λ l, Lock.key lock :: l) [Acquired (Lock.key lock)] w).

(** Modelled from the spec: [TimedRetryPolicy(n)(operation)] of
    [sentry.utils.retries], which is not in the source tree.  The operation
    is executed up to [maxAttempts] times, retrying only on
    [LockUnavailable]; exhausting the attempts raises [LockTimeout], every
    other failure propagates at once (spec 4.2).  The delay between
    attempts is not modelled. *)
Fixpoint TimedRetryPolicy {A} (maxAttempts : nat) (operation : M A) : M A :=
  match maxAttempts with
  | 0 => raise LockTimeout
  | S remaining => λ w,
      match operation w with
      | (Raise LockUnavailable, w') => TimedRetryPolicy remaining operation w'
      | r => r
      end
  end.

(** ** The handler *)

(** The payload of a response. *)
Inductive body : Type :=
| Serialized (release : Release.t)               (* serialize(release, user) *)
| Errors (fields : list (string * list string)).

(** [Response(data, status=...)] *)
Record Response : Type := mkResponse { data : body; status : nat }.

(** Lines 118-142: the idempotent lookup-or-create of the release. *)
Definition get_or_create_release (organization : Organization.t) (result : Result.t)
    : M (Release.t * bool) :=
  release ← Release_objects_filter_first (Organization.id organization)
              (Result.version result);
  match release with
  | Some release => mret (release, false)
  | None =>
      let lock_key := get_lock_key (Organization.id organization) (Result.version result) in
      let lock := locks_get lock_key 5 in
      with_ (TimedRetryPolicy 10 (Lock_acquire lock))
        (found ← try_ (Release_objects_get (Result.version result)
                         (Organization.id organization));
         match found with
         | Return release => mret (release, false)
         | Raise DoesNotExist =>
             release ← Release_objects_create (Organization.id organization)
                         (Result.version result) (Result.ref result) (Result.url result)
                         (Result.owner result) (Result.dateStarted result)
                         (Result.dateReleased result);
             mret (release, true)
         | Raise e => raise e
         end)
  end.

(** Lines 144-152: one insert per project, each in its own transaction. *)
Fixpoint link_all (release : Release.t) (projects new_projects : list Project.t)
    : M (list Project.t) :=
  match projects with
  | [] => mret new_projects
  | project :: rest =>
      linked ← try_ (transaction_atomic (ReleaseProject_objects_create project release));
      match linked with
      | Raise IntegrityError => link_all release rest new_projects
      | Raise e => raise e
      | Return _ => link_all release rest (new_projects ++ [project])
      end
  end.

(** Lines 155-163: the body of [if release.date_released:]. *)
Fixpoint notify_all (result : Result.t) (date_released : datetime)
    (new_projects : list Project.t) : M unit :=
  match new_projects with
  | [] => mret ()
  | project :: rest =>
      activity ← Activity_objects_create Activity.RELEASE project
                   (Result.version result) (Result.version result) date_released;
      _ ← send_notification activity;
      notify_all result date_released rest
  end.

(** Lines 154-163: nothing is emitted for a release that is not live. *)
Definition notify_if_live (result : Result.t) (release : Release.t)
    (new_projects : list Project.t) : M unit :=
  match Release.date_released release with
  | Some date_released => notify_all result date_released new_projects
  | None => mret ()
  end.

(** Lines 165-167: [if commit_list:] holds for a non-empty list. *)
Definition attach_commits (result : Result.t) (release : Release.t) : M unit :=
  match Result.commits result with
  | Some ((_ :: _) as commit_list) => set_commits release commit_list
  | _ => mret ()
  end.

(** Line 114: the answer to a request that names an unknown project. *)
Definition invalid_slugs_response : Response :=
  mkResponse (Errors [("projects", ["Invalid project slugs"])]) 400.

(** [post]: [request_data] is the outcome of [serializer.is_valid()], either
    [serializer.errors] or [serializer.object]. *)
Definition post (request_data : list (string * list string) + Result.t)
    (organization : Organization.t) : M Response :=
  match request_data with
  | inr result =>
      projects ← Project_objects_filter (Organization.id organization)
                   (Result.projects result);
      let invalid_projects : gset string :=
        list_to_set (Result.projects result) ∖ list_to_set (Project.slug <$> projects) in
      if decide (invalid_projects ≠ ∅) then mret invalid_slugs_response
      else
        '(release, created) ← get_or_create_release organization result;
        new_projects ← link_all release projects [];
        _ ← notify_if_live result release new_projects;
        _ ← attach_commits result release;
        mret (mkResponse (Serialized release) (if (created : bool) then 201 else 208))
  | inl errors => mret (mkResponse (Errors errors) 400)
  end.

(** ** Interleaved callers of the get-or-create section

    One caller of lines 118-142 as a machine that performs one database or
    lock operation per step.  [history] is a ghost record of the operations
    the caller has performed; no step reads it. *)

(** The operations a caller performs, with their results. *)
Inductive op : Type :=
| OpLookup (found : option Release.t)     (* line 118: filter(...).first() *)
| OpAcquire (acquired : bool)             (* line 127: one attempt of lock.acquire *)
| OpGiveUp                                (* line 127: the retry policy gives up *)
| OpGet (found : outcome Release.t)       (* line 129: Release.objects.get *)
| OpCreate (made : outcome Release.t)     (* line 134: Release.objects.create *)
| OpRelease.                              (* leaving the with block *)

(** Where a caller is: what it does next, or how it has ended. *)
Inductive pc : Type :=
| Lookup                                       (* line 118 *)
| Acquiring (remaining : nat)                  (* line 127, attempts left *)
| Getting                                      (* line 129 *)
| Creating                                     (* line 134 *)
| Releasing (o : outcome (Release.t * bool))   (* leaving the with block *)
| Done (o : outcome (Release.t * bool)).

(** A caller of the section: its request, its position and its history. *)
Module Caller.
Record t : Type := mk {
  organization : Organization.t;
  result : Result.t;
  at_ : pc;
  history : list op
}.

Definition start (organization : Organization.t) (result : Result.t) : t :=
  mk organization result Lookup [].

Definition goto (c : t) (l : pc) (o : op) : t :=
  mk (organization c) (result c) l (history c ++ [o]).

Definition key (c : t) : lock_key :=
  get_lock_key (Organization.id (organization c)) (Result.version (result c)).
End Caller.

(** One step of a caller: the next operation of lines 118-142, run against
    the shared world. *)
Definition caller_step (c : Caller.t) (w : World) : Caller.t * World :=
  let organization_id := Organization.id (Caller.organization c) in
  let result := Caller.result c in
  let lock := locks_get (get_lock_key organization_id (Result.version result)) 5 in
  match Caller.at_ c with
  | Lookup =>
      match Release_objects_filter_first organization_id (Result.version result) w with
      | (Return (Some release), w') =>
          (Caller.goto c (Done (Return (release, false))) (OpLookup (Some release)), w')
      | (Return None, w') => (Caller.goto c (Acquiring 10) (OpLookup None), w')
      | (Raise e, w') => (Caller.goto c (Done (Raise e)) (OpLookup None), w')
      end
  | Acquiring 0 => (Caller.goto c (Done (Raise LockTimeout)) OpGiveUp, w)
  | Acquiring (S remaining) =>
      match Lock_acquire lock w with
      | (Return _, w') => (Caller.goto c Getting (OpAcquire true), w')
      | (Raise LockUnavailable, w') =>
          (Caller.goto c (Acquiring remaining) (OpAcquire false), w')
      | (Raise e, w') => (Caller.goto c (Done (Raise e)) (OpAcquire false), w')
      end
  | Getting =>
      match Release_objects_get (Result.version result) organization_id w with
      | (Return release, w') =>
          (Caller.goto c (Releasing (Return (release, false))) (OpGet (Return release)), w')
      | (Raise DoesNotExist, w') => (Caller.goto c Creating (OpGet (Raise DoesNotExist)), w')
      | (Raise e, w') => (Caller.goto c (Releasing (Raise e)) (OpGet (Raise e)), w')
      end
  | Creating =>
      match Release_objects_create organization_id (Result.version result)
              (Result.ref result) (Result.url result) (Result.owner result)
              (Result.dateStarted result) (Result.dateReleased result) w with
      | (Return release, w') =>
          (Caller.goto c (Releasing (Return (release, true))) (OpCreate (Return release)), w')
      | (Raise e, w') => (Caller.goto c (Releasing (Raise e)) (OpCreate (Raise e)), w')
      end
  | Releasing o =>
      let '(_, w') := Lock_release lock w in (Caller.goto c (Done o) OpRelease, w')
  | Done _ => (c, w)
  end.

(** What the scheduler can do next: let caller [i] perform its next
    operation, or let the lock [k] run out of its duration. *)
Inductive action : Type :=
| Run (i : nat)
| Expire (k : lock_key).

(** The callers and the world they share. *)
Definition system : Type := list Caller.t * World.

(** One action of the scheduler; a caller that does not exist or has
    finished does nothing. *)
Definition act (s : system) (a : action) : system :=
  match a with
  | Run i =>
      match s.1 !! i with
      | Some c => let '(c', w') := caller_step c s.2 in (<[i:=c']> s.1, w')
      | None => s
      end
  | Expire k => (s.1, with_locks (filter (λ k', k' ≠ k)) [] s.2)
  end.

(** An interleaving is a list of actions. *)
Definition run (schedule : list action) (s : system) : system :=
  foldl act s schedule.

(** All callers about to enter the section. *)
Definition callers (requests : list (Organization.t * Result.t)) : list Caller.t :=
  (λ request, Caller.start request.1 request.2) <$> requests.

(** ** Vocabulary of the statements *)

(** The release stored for [(organization_id, version)], if any. *)
Definition stored_release (w : World) (organization_id : nat) (version : string)
    : option Release.t :=
  head (filter (is_release organization_id version) (release_table w)).

(** [slug] names a project of the organization. *)
Definition resolves (w : World) (organization_id : nat) (slug : string) : Prop :=
  ∃ p, p ∈ project_table w ∧ Project.organization_id p = organization_id
       ∧ Project.slug p = slug.

(** The projects the request names: the value of [projects] in [post]. *)
Definition requested_projects (w : World) (organization : Organization.t)
    (result : Result.t) : list Project.t :=
  filter (λ p, Project.organization_id p = Organization.id organization
               ∧ Project.slug p ∈ Result.projects result) (project_table w).

Definition link_of (release : Release.t) (p : Project.t) : ReleaseProject.t :=
  ReleaseProject.mk (Project.id p) (Release.id release).

Definition linked (w : World) (release : Release.t) (p : Project.t) : Prop :=
  link_of release p ∈ releaseproject_table w.

#[global] Instance linked_dec w release p : Decision (linked w release p).
Proof. unfold linked. apply _. Defined.

(** The projects of [projects] that are not yet linked to [release] in [w]. *)
Definition unlinked (w : World) (release : Release.t) (projects : list Project.t)
    : list Project.t :=
  filter (λ p, ¬ linked w release p) projects.

(** The projects of [projects] whose link to [release] can be inserted in
    [w]: not yet linked, and with both rows stored. *)
Definition insertable (w : World) (release : Release.t) (projects : list Project.t)
    : list Project.t :=
  filter (referenced w release) (unlinked w release projects).

Definition release_activity (version : string) (date_released : datetime)
    (p : Project.t) : Activity.t :=
  Activity.mk Activity.RELEASE (Project.id p) version version date_released.

Definition dispatch_of (version : string) (date_released : datetime)
    (p : Project.t) : list dispatch_event :=
  [Emitted (release_activity version date_released p);
   Notified (release_activity version date_released p)].

(** The release a request would create. *)
Definition release_of_request (id : nat) (organization : Organization.t)
    (result : Result.t) : Release.t :=
  Release.mk id (Organization.id organization) (Result.version result)
    (Result.ref result) (Result.url result) (Result.owner result)
    (Result.dateStarted result) (Result.dateReleased result).

(** A response reports [slug] when one of its error messages contains it. *)
Definition reports (r : Response) (slug : string) : Prop :=
  match data r with
  | Errors fields =>
      ∃ field messages message, (field, messages) ∈ fields ∧ message ∈ messages
        ∧ String.index 0 slug message ≠ None
  | Serialized _ => False
  end.

(** The world after a sequence of requests handled one after the other. *)
Definition replay (requests : list (list (string * list string) + Result.t))
    (organization : Organization.t) (w : World) : World :=
  foldl (λ w request_data, (post request_data organization w).2) w requests.

(** *** Runs of the handler *)

(** Every run of [post] on a validated payload is one of: the slug check
    fails; the get-or-create section raises; linking raises; notification
    raises; or all stages return. *)
Inductive post_run (result : Result.t) (organization : Organization.t) (w : World)
    : outcome Response → World → Prop :=
| run_invalid :
    (∃ slug, slug ∈ Result.projects result
             ∧ ¬ resolves w (Organization.id organization) slug) →
    post_run result organization w (Return invalid_slugs_response) w
| run_no_release e w1 :
    get_or_create_release organization result w = (Raise e, w1) →
    post_run result organization w (Raise e) w1
| run_link_failed release created w1 e w2 :
    get_or_create_release organization result w = (Return (release, created), w1) →
    link_all release (requested_projects w organization result) [] w1 = (Raise e, w2) →
    post_run result organization w (Raise e) w2
| run_notify_failed release created w1 new_projects w2 e w3 :
    get_or_create_release organization result w = (Return (release, created), w1) →
    link_all release (requested_projects w organization result) [] w1
      = (Return new_projects, w2) →
    notify_if_live result release new_projects w2 = (Raise e, w3) →
    post_run result organization w (Raise e) w3
| run_complete release created w1 new_projects w2 u w3 u' w4 :
    (∀ slug, slug ∈ Result.projects result
             → ¬ ¬ resolves w (Organization.id organization) slug) →
    get_or_create_release organization result w = (Return (release, created), w1) →
    link_all release (requested_projects w organization result) [] w1
      = (Return new_projects, w2) →
    notify_if_live result release new_projects w2 = (Return u, w3) →
    attach_commits result release w3 = (Return u', w4) →
    post_run result organization w
      (Return (mkResponse (Serialized release) (if (created : bool) then 201 else 208))) w4.

(** [post] only appends to the tables and journals; the project table and
    the fault plan are never written. *)
Definition extends (w w' : World) : Prop :=
  ∃ new added activities commits f lock_events events,
    w' = mkWorld (project_table w) (release_table w ++ new)
           (releaseproject_table w ++ added) (activity_table w ++ activities)
           (commit_table w ++ commits) (f (held_locks w))
           (lock_journal w ++ lock_events) (dispatch_journal w ++ events)
           (link_faults w) (notify_faults w).

(** *** Steps and histories of the machine *)

(** The stored releases a caller's request is about. *)
Definition matching (w : World) (c : Caller.t) : list Release.t :=
  filter (is_release (Organization.id (Caller.organization c))
            (Result.version (Caller.result c))) (release_table w).

(** The release caller [c] creates when the table is [table]. *)
Definition made_by (c : Caller.t) (table : list Release.t) : Release.t :=
  release_of_request (fresh_release_id table) (Caller.organization c) (Caller.result c).

(** [caller_step] as a relation, one rule per operation and result. *)
Inductive caller_steps (c : Caller.t) (w : World) : Caller.t → World → Prop :=
| step_lookup_found release l :
    Caller.at_ c = Lookup → matching w c = release :: l →
    caller_steps c w
      (Caller.goto c (Done (Return (release, false))) (OpLookup (Some release))) w
| step_lookup_missing :
    Caller.at_ c = Lookup → matching w c = [] →
    caller_steps c w (Caller.goto c (Acquiring 10) (OpLookup None)) w
| step_give_up :
    Caller.at_ c = Acquiring 0 →
    caller_steps c w (Caller.goto c (Done (Raise LockTimeout)) OpGiveUp) w
| step_contended n :
    Caller.at_ c = Acquiring (S n) → Caller.key c ∈ held_locks w →
    caller_steps c w (Caller.goto c (Acquiring n) (OpAcquire false))
      (with_locks (λ l, l) [Contended (Caller.key c)] w)
| step_acquired n :
    Caller.at_ c = Acquiring (S n) → Caller.key c ∉ held_locks w →
    caller_steps c w (Caller.goto c Getting (OpAcquire true))
      (with_locks (λ l, Caller.key c :: l) [Acquired (Caller.key c)] w)
| step_get_found release :
    Caller.at_ c = Getting → matching w c = [release] →
    caller_steps c w
      (Caller.goto c (Releasing (Return (release, false))) (OpGet (Return release))) w
| step_get_missing :
    Caller.at_ c = Getting → matching w c = [] →
    caller_steps c w (Caller.goto c Creating (OpGet (Raise DoesNotExist))) w
| step_get_several r1 r2 l :
    Caller.at_ c = Getting → matching w c = r1 :: r2 :: l →
    caller_steps c w
      (Caller.goto c (Releasing (Raise MultipleObjectsReturned))
         (OpGet (Raise MultipleObjectsReturned))) w
| step_create :
    Caller.at_ c = Creating → matching w c = [] →
    caller_steps c w
      (Caller.goto c (Releasing (Return (made_by c (release_table w), true)))
         (OpCreate (Return (made_by c (release_table w)))))
      (with_release_table (λ t, t ++ [made_by c (release_table w)]) w)
| step_create_conflict r l :
    Caller.at_ c = Creating → matching w c = r :: l →
    caller_steps c w
      (Caller.goto c (Releasing (Raise IntegrityError)) (OpCreate (Raise IntegrityError))) w
| step_release o :
    Caller.at_ c = Releasing o →
    caller_steps c w (Caller.goto c (Done o) OpRelease)
      (with_locks (filter (λ k', k' ≠ Caller.key c)) [Released (Caller.key c)] w)
| step_done o :
    Caller.at_ c = Done o → caller_steps c w c w.

(** The lookup found nothing and [k] attempts to take the lock failed. *)
Definition attempts (k : nat) : list op :=
  OpLookup None :: replicate k (OpAcquire false).

(** What a caller does between taking and releasing the lock, by outcome. *)
Inductive in_lock (c : Caller.t) : outcome (Release.t * bool) → list op → Prop :=
| lock_found release :
    in_lock c (Return (release, false)) [OpGet (Return release)]
| lock_created id :
    in_lock c
      (Return (release_of_request id (Caller.organization c) (Caller.result c), true))
      [OpGet (Raise DoesNotExist);
       OpCreate (Return (release_of_request id (Caller.organization c) (Caller.result c)))]
| lock_several :
    in_lock c (Raise MultipleObjectsReturned) [OpGet (Raise MultipleObjectsReturned)]
| lock_conflict :
    in_lock c (Raise IntegrityError)
      [OpGet (Raise DoesNotExist); OpCreate (Raise IntegrityError)].

(** The history a caller can have at each point of the section. *)
Definition on_track (c : Caller.t) : Prop :=
  match Caller.at_ c with
  | Lookup => Caller.history c = []
  | Acquiring n => n ≤ 10 ∧ Caller.history c = attempts (10 - n)
  | Getting => ∃ k, k < 10 ∧ Caller.history c = attempts k ++ [OpAcquire true]
  | Creating =>
      ∃ k, k < 10
           ∧ Caller.history c
             = attempts k ++ [OpAcquire true] ++ [OpGet (Raise DoesNotExist)]
  | Releasing o =>
      ∃ k ops, k < 10 ∧ in_lock c o ops
               ∧ Caller.history c = attempts k ++ [OpAcquire true] ++ ops
  | Done o =>
      (∃ release, o = Return (release, false)
                  ∧ Caller.history c = [OpLookup (Some release)])
      ∨ (o = Raise LockTimeout ∧ Caller.history c = attempts 10 ++ [OpGiveUp])
      ∨ (∃ k ops, k < 10 ∧ in_lock c o ops
                  ∧ Caller.history c = attempts k ++ [OpAcquire true] ++ ops ++ [OpRelease])
  end.

(** *** Invariants of interleaved runs *)

(** The uniqueness constraint on [(organization_id, version)]. *)
Definition unique_releases (w : World) : Prop :=
  ∀ o v, length (filter (is_release o v) (release_table w)) ≤ 1.

(** The release a caller has obtained, with its [created] flag. *)
Definition outcome_of (c : Caller.t) : option (Release.t * bool) :=
  match Caller.at_ c with
  | Releasing (Return rc) | Done (Return rc) => Some rc
  | _ => None
  end.



(** The caller is between taking and releasing the lock. *)
Definition in_section (c : Caller.t) : Prop :=
  match Caller.at_ c with
  | Getting | Creating | Releasing _ => True
  | _ => False
  end.

(** Safety: keys are unique, a returned release is stored under the
    caller's key, and no two callers for one key were told [created]. *)
Record coherent (s : system) : Prop := mk_coherent {
  coh_unique : unique_releases s.2;
  coh_returned : ∀ i c r b,
    s.1 !! i = Some c → outcome_of c = Some (r, b) → r ∈ matching s.2 c;
  coh_created : ∀ i j ci cj ri rj,
    s.1 !! i = Some ci → s.1 !! j = Some cj → Caller.key ci = Caller.key cj →
    outcome_of ci = Some (ri, true) → outcome_of cj = Some (rj, true) → i = j
}.


(** The action is a step of a caller, not the running out of a lock. *)
Definition is_run (a : action) : Prop :=
  match a with Run _ => True | Expire _ => False end.

(** The exception a caller has met, if any. *)
Definition failure_of (c : Caller.t) : option exn :=
  match Caller.at_ c with
  | Releasing (Raise e) | Done (Raise e) => Some e
  | _ => None
  end.

(** Mutual exclusion: callers in the section hold their lock, alone for
    their key; an insert is attempted only for a key that is not stored;
    the only failure is [LockTimeout]. *)
Record exclusive (s : system) : Prop := mk_exclusive {
  exc_held : ∀ i c, s.1 !! i = Some c → in_section c → Caller.key c ∈ held_locks s.2;
  exc_alone : ∀ i j ci cj,
    s.1 !! i = Some ci → s.1 !! j = Some cj → in_section ci → in_section cj →
    Caller.key ci = Caller.key cj → i = j;
  exc_fresh : ∀ i c, s.1 !! i = Some c → Caller.at_ c = Creating → matching s.2 c = [];
  exc_clean : ∀ i c e, s.1 !! i = Some c → failure_of c = Some e → e = LockTimeout
}.

(** ** Who may see which projects: [get_allowed_projects] (lines 26-39)

    The listing endpoint asks which projects the requesting user may see.
    The rows it reads are those of teams, of organization members, of the
    members' teams, and the team column of the projects.  The model classes
    are declared outside this file: the records below carry the columns that
    the three queries name ([organization], [id], [organizationmember__user],
    [team__organization_id], [team_id]) and nothing else.  A lookup across a
    foreign key holds of a row when a row of the other table with that key
    satisfies it; the result of [team_id__in] does not depend on how often
    an id is listed. *)

Module Team.
Record t : Type := mk { id : nat; organization_id : nat }.
End Team.

(** [user] is the account of the member, when it has one. *)
Module OrganizationMember.
Record t : Type := mk { id : nat; user : option nat }.
End OrganizationMember.

Module OrganizationMemberTeam.
Record t : Type := mk { organizationmember_id : nat; team_id : nat }.
End OrganizationMemberTeam.

(** A project row together with its [team_id] column. *)
Module TeamProject.
Record t : Type := mk { project : Project.t; team_id : nat }.
End TeamProject.

(** [request.user] is [None] for the anonymous user, whose
    [is_authenticated()] is false. *)
Module Request.
Record t : Type := mk { user : option nat; is_superuser : bool }.
End Request.

(** [organization.flags] *)
Module Flags.
Record t : Type := mk { allow_joinleave : bool }.
End Flags.

(** The tables [get_allowed_projects] reads. *)
Record Directory : Type := mkDirectory {
  team_table : list Team.t;
  organizationmember_table : list OrganizationMember.t;
  organizationmemberteam_table : list OrganizationMemberTeam.t;
  teamproject_table : list TeamProject.t
}.

(** [Team.objects.filter(organization=organization).values_list('id', flat=True)] *)
Definition organization_team_ids (d : Directory) (organization : Organization.t)
    : list nat :=
  Team.id <$> filter (λ t, Team.organization_id t = Organization.id organization)
                (team_table d).

(** The join [organizationmember__user=user] of a member-team row. *)
Definition member_is_user (d : Directory) (user : nat)
    (omt : OrganizationMemberTeam.t) : Prop :=
  Exists (λ om, OrganizationMember.id om = OrganizationMemberTeam.organizationmember_id omt
                ∧ OrganizationMember.user om = Some user)
    (organizationmember_table d).

(** The join [team__organization_id=organization_id] of a member-team row. *)
Definition team_is_in (d : Directory) (organization_id : nat)
    (omt : OrganizationMemberTeam.t) : Prop :=
  Exists (λ t, Team.id t = OrganizationMemberTeam.team_id omt
               ∧ Team.organization_id t = organization_id)
    (team_table d).

#[global] Instance member_is_user_dec d user omt : Decision (member_is_user d user omt).
Proof. unfold member_is_user. apply _. Defined.

#[global] Instance team_is_in_dec d o omt : Decision (team_is_in d o omt).
Proof. unfold team_is_in. apply _. Defined.

(** [OrganizationMemberTeam.objects.filter(organizationmember__user=...,
    team__organization_id=...).values_list('team_id', flat=True)] *)
Definition member_team_ids (d : Directory) (user : nat) (organization : Organization.t)
    : list nat :=
  OrganizationMemberTeam.team_id
    <$> filter (λ omt, member_is_user d user omt
                       ∧ team_is_in d (Organization.id organization) omt)
          (organizationmemberteam_table d).

(** Lines 26-39. *)
Definition get_allowed_projects (d : Directory) (request : Request.t)
    (organization : Organization.t) (flags : Flags.t) : list TeamProject.t :=
  match Request.user request with
  | None => []
  | Some user =>
      let allowed_teams :=
        if Request.is_superuser request || Flags.allow_joinleave flags
        then organization_team_ids d organization
        else member_team_ids d user organization in
      filter (λ p, TeamProject.team_id p ∈ allowed_teams) (teamproject_table d)
  end.

(** ** Further vocabulary *)

(** Every lock held in [s] was held in [w0] or is held by a caller that is
    in the section. *)
Definition locks_accounted (w0 : World) (s : system) : Prop :=
  ∀ k, k ∈ held_locks s.2 →
       k ∈ held_locks w0
       ∨ ∃ i c, s.1 !! i = Some c ∧ in_section c ∧ Caller.key c = k.

(** Every release stored in [s] was stored in [w0] or has been inserted by
    a caller, from its own request, who is told so. *)
Definition releases_accounted (w0 : World) (s : system) : Prop :=
  ∀ r, r ∈ release_table s.2 →
       r ∈ release_table w0
       ∨ ∃ i c id, s.1 !! i = Some c ∧ outcome_of c = Some (r, true)
                   ∧ r = release_of_request id (Caller.organization c) (Caller.result c).

(** What [post] records in the commit table when it answers. *)
Definition commits_recorded (result : Result.t) (release : Release.t)
    : list (nat * list string) :=
  match Result.commits result with
  | Some (c :: cs) => [(Release.id release, c :: cs)]
  | _ => []
  end.

(** ** Sample data

    Organization 7 owns the projects "web" and "api"; organization 8 owns
    another project called "web". *)

Definition acme : Organization.t := Organization.mk 7.

Definition web : Project.t := Project.mk 1 7 "web".
Definition api : Project.t := Project.mk 2 7 "api".

Definition empty_world : World :=
  mkWorld [web; api; Project.mk 3 8 "web"] [] [] [] [] [] [] [] [] [].

Definition request (version : string) (dateReleased : option datetime)
    (projects : list string) : Result.t :=
  Result.mk version None None None None dateReleased projects None.

(** Release 1 of [acme], version "2.0", live since 100. *)
Definition live_release : Release.t :=
  Release.mk 1 7 "2.0" None None None None (Some 100%Z).

(** [live_release] is stored and already linked to [web]. *)
Definition linked_world : World :=
  mkWorld [web; api; Project.mk 3 8 "web"] [live_release]
    [ReleaseProject.mk 1 1] [] [] [] [] [] [] [].

(** A project of [acme] whose row is not, or no longer, stored. *)
Definition ghost : Project.t := Project.mk 9 7 "ghost".

(** [linked_world] as it was before the row of [ghost] was deleted. *)
Definition haunted_world : World :=
  mkWorld [web; api; Project.mk 3 8 "web"; ghost] [live_release]
    [ReleaseProject.mk 1 1] [] [] [] [] [] [] [].

(** [linked_world] with a storage layer that fails on the inserts about
    project 1 ([web]). *)
Definition failing_world : World :=
  mkWorld [web; api; Project.mk 3 8 "web"] [live_release]
    [ReleaseProject.mk 1 1] [] [] [] [] [] [(1, mkFault OperationalError I)] [].

(** Notifications about project 1 ([web]) fail. *)
Definition deaf_world : World :=
  mkWorld [web; api; Project.mk 3 8 "web"] [] [] [] [] [] [] [] [] [1].

(** Notifications about both projects of [acme] fail. *)
Definition mute_world : World :=
  mkWorld [web; api; Project.mk 3 8 "web"] [] [] [] [] [] [] [] [] [1; 2].

(** [mute_world] with the rows of the two projects in the other order. *)
Definition mute_world_reversed : World :=
  mkWorld [api; web; Project.mk 3 8 "web"] [] [] [] [] [] [] [] [] [1; 2].

(** Two callers ask for release "1.0" of [acme] with different fields. *)
Definition racing_requests : list (Organization.t * Result.t) :=
  [(acme, request "1.0" None ["web"]);
   (acme, Result.mk "1.0" (Some "abc") None None None (Some 9%Z) ["api"] None)].

(** Both callers miss in their first lookup; caller 0 then runs the whole
    section, and caller 1 finds the release in its second lookup. *)
Definition racing_schedule : list action :=
  [Run 0; Run 1; Run 0; Run 1; Run 0; Run 0; Run 0; Run 1; Run 1; Run 1].

(** Team 10 belongs to organization 7, team 20 to organization 8.  User 5
    is a member of team 10 only; user 6 is in no team. *)
Definition sample_directory : Directory :=
  mkDirectory [Team.mk 10 7; Team.mk 11 7; Team.mk 20 8]
    [OrganizationMember.mk 100 (Some 5); OrganizationMember.mk 101 (Some 6);
     OrganizationMember.mk 102 None]
    [OrganizationMemberTeam.mk 100 10; OrganizationMemberTeam.mk 102 11]
    [TeamProject.mk web 10; TeamProject.mk api 11;
     TeamProject.mk (Project.mk 3 8 "web") 20].

(** * Proofs *)

(** ** Basic facts about the monad and the world *)

Lemma bind_unfold {A B} (m : M A) (f : A → M B) (w : World) :
  (m ≫= f) w = match m w with
               | (Return a, w') => f a w'
               | (Raise e, w') => (Raise e, w')
               end.
Proof. reflexivity. Qed.

Lemma rollback_same (w : World) : rollback w w = w.
Proof. by destruct w. Qed.

(** ** Validation of the project slugs (lines 110-114) *)

Lemma invalid_projects_nonempty (w : World) (organization : Organization.t)
    (result : Result.t) :
  (list_to_set (Result.projects result)
     ∖ list_to_set (Project.slug <$> requested_projects w organization result)
     : gset string) ≠ ∅
  ↔ ∃ slug, slug ∈ Result.projects result
            ∧ ¬ resolves w (Organization.id organization) slug.
Proof.
  unfold requested_projects, resolves. split.
  - intros Hne. apply set_choose_L in Hne as [slug Hslug].
    exists slug. apply elem_of_difference in Hslug as [Hin Hout].
    rewrite elem_of_list_to_set in Hin. rewrite elem_of_list_to_set in Hout.
    split; [done|]. intros (p & Hp & Horg & Hs). apply Hout.
    apply list_elem_of_fmap. exists p. split; [done|].
    apply list_elem_of_filter. subst. done.
  - intros (slug & Hin & Hout) Hempty.
    assert (slug ∈ (∅ : gset string)) as Habs; [|set_solver].
    rewrite <- Hempty. apply elem_of_difference.
    rewrite !elem_of_list_to_set. split; [done|].
    intros (p & -> & Hp)%list_elem_of_fmap.
    apply list_elem_of_filter in Hp as [[Horg Hs] Hp].
    apply Hout. by exists p.
Qed.

Lemma post_invalid (result : Result.t) (organization : Organization.t) (w : World) :
  (∃ slug, slug ∈ Result.projects result
           ∧ ¬ resolves w (Organization.id organization) slug) →
  post (inr result) organization w = (Return invalid_slugs_response, w).
Proof.
  intros H%invalid_projects_nonempty. unfold post, Project_objects_filter.
  rewrite bind_unfold. fold (requested_projects w organization result).
  by rewrite decide_True.
Qed.

Lemma post_valid (result : Result.t) (organization : Organization.t) (w : World) :
  ¬ (∃ slug, slug ∈ Result.projects result
             ∧ ¬ resolves w (Organization.id organization) slug) →
  post (inr result) organization w =
    ('(release, created) ← get_or_create_release organization result;
     new_projects ← link_all release (requested_projects w organization result) [];
     _ ← notify_if_live result release new_projects;
     _ ← attach_commits result release;
     mret (mkResponse (Serialized release) (if (created : bool) then 201 else 208))) w.
Proof.
  intros H. rewrite <- invalid_projects_nonempty in H.
  unfold post, Project_objects_filter.
  rewrite bind_unfold. fold (requested_projects w organization result).
  by rewrite decide_False.
Qed.

(** ** World updates compose *)

Lemma with_locks_nil (w : World) : with_locks (λ l, l) [] w = w.
Proof. destruct w. unfold with_locks. simpl. by rewrite app_nil_r. Qed.

Lemma with_locks_with_locks f g e e' (w : World) :
  with_locks f e (with_locks g e' w) = with_locks (λ l, f (g l)) (e' ++ e) w.
Proof. destruct w. unfold with_locks. simpl. by rewrite app_assoc. Qed.

Lemma with_releaseproject_table_nil (w : World) :
  with_releaseproject_table (λ t, t ++ []) w = w.
Proof. destruct w. unfold with_releaseproject_table. simpl. by rewrite app_nil_r. Qed.

Lemma with_releaseproject_table_app l1 l2 (w : World) :
  with_releaseproject_table (λ t, t ++ l2) (with_releaseproject_table (λ t, t ++ l1) w)
  = with_releaseproject_table (λ t, t ++ (l1 ++ l2)) w.
Proof. destruct w. unfold with_releaseproject_table. simpl. by rewrite app_assoc. Qed.

(** ** The retry policy *)

Lemma retry_first_attempt {A} (n : nat) (operation : M A) (w : World) :
  (∀ w', operation w ≠ (Raise LockUnavailable, w')) →
  TimedRetryPolicy (S n) operation w = operation w.
Proof.
  intros H. simpl. destruct (operation w) as [[a|e] w'] eqn:E; [done|].
  destruct e; try done. by destruct (H w').
Qed.

Lemma retry_contended (n : nat) (lock : Lock.t) (w : World) :
  Lock.key lock ∈ held_locks w →
  TimedRetryPolicy n (Lock_acquire lock) w
  = (Raise LockTimeout,
     with_locks (λ l, l) (replicate n (Contended (Lock.key lock))) w).
Proof.
  revert w. induction n as [|n IH]; intros w Hheld.
  - simpl. unfold raise. by rewrite with_locks_nil.
  - simpl. unfold Lock_acquire at 1. rewrite decide_True by done.
    rewrite IH by (by destruct w). by rewrite with_locks_with_locks.
Qed.

Lemma retry_free (n : nat) (lock : Lock.t) (w : World) :
  Lock.key lock ∉ held_locks w →
  TimedRetryPolicy (S n) (Lock_acquire lock) w
  = (Return (Lock_release lock),
     with_locks (λ l, Lock.key lock :: l) [Acquired (Lock.key lock)] w).
Proof.
  intros Hfree. simpl. unfold Lock_acquire. by rewrite decide_False.
Qed.

(** ** The get-or-create section run alone *)

Lemma get_or_create_found organization result (w : World) (release : Release.t) :
  stored_release w (Organization.id organization) (Result.version result) = Some release →
  get_or_create_release organization result w = (Return (release, false), w).
Proof.
  intros H. unfold get_or_create_release, Release_objects_filter_first.
  rewrite bind_unfold. fold (stored_release w (Organization.id organization)
                               (Result.version result)).
  by rewrite H.
Qed.

Lemma get_or_create_contended organization result (w : World) :
  stored_release w (Organization.id organization) (Result.version result) = None →
  get_lock_key (Organization.id organization) (Result.version result) ∈ held_locks w →
  get_or_create_release organization result w
  = (Raise LockTimeout,
     with_locks (λ l, l)
       (replicate 10 (Contended (get_lock_key (Organization.id organization)
                                   (Result.version result)))) w).
Proof.
  intros H Hheld. unfold get_or_create_release, Release_objects_filter_first.
  rewrite bind_unfold. fold (stored_release w (Organization.id organization)
                               (Result.version result)).
  rewrite H. unfold with_. rewrite bind_unfold.
  by rewrite retry_contended.
Qed.

Lemma get_or_create_created organization result (w : World) :
  stored_release w (Organization.id organization) (Result.version result) = None →
  get_lock_key (Organization.id organization) (Result.version result) ∉ held_locks w →
  let k := get_lock_key (Organization.id organization) (Result.version result) in
  let release := release_of_request (fresh_release_id (release_table w))
                   organization result in
  get_or_create_release organization result w
  = (Return (release, true),
     with_locks (filter (λ k', k' ≠ k)) [Released k]
       (with_release_table (λ t, t ++ [release])
          (with_locks (λ l, k :: l) [Acquired k] w))).
Proof.
  intros H Hfree k release.
  unfold get_or_create_release, Release_objects_filter_first.
  rewrite bind_unfold. fold (stored_release w (Organization.id organization)
                               (Result.version result)).
  rewrite H. unfold with_. rewrite bind_unfold.
  rewrite retry_free by done.
  apply head_None in H.
  rewrite bind_unfold. unfold try_ at 1, try_ at 1.
  rewrite bind_unfold. unfold try_, Release_objects_get. simpl.
  rewrite H. rewrite bind_unfold.
  unfold Release_objects_create. simpl. rewrite H. reflexivity.
Qed.

(** ** Linking (lines 144-152) *)

Lemma link_fault_other (w : World) p e : link_fault w p = Some e → e ≠ IntegrityError.
Proof.
  unfold link_fault. destruct (head _) as [[i f]|]; [|done].
  intros [= <-]. simpl. apply (bool_decide_unpack _), raises_other.
Qed.

Lemma rollback_links f (w : World) : rollback w (with_releaseproject_table f w) = w.
Proof. by destruct w. Qed.

Lemma link_fault_links f (w : World) p :
  link_fault (with_releaseproject_table f w) p = link_fault w p.
Proof. done. Qed.

Lemma referenced_links f (w : World) release p :
  referenced (with_releaseproject_table f w) release p ↔ referenced w release p.
Proof. done. Qed.

Lemma link_one_linked release p (w : World) :
  link_fault w p = None → linked w release p →
  try_ (transaction_atomic (ReleaseProject_objects_create p release)) w
  = (Return (Raise IntegrityError), w).
Proof.
  intros Hok Hl. unfold try_, transaction_atomic, ReleaseProject_objects_create.
  rewrite Hok. rewrite decide_True by (by left). by rewrite rollback_links.
Qed.

Lemma link_one_dangling release p (w : World) :
  link_fault w p = None → ¬ referenced w release p →
  try_ (transaction_atomic (ReleaseProject_objects_create p release)) w
  = (Return (Raise IntegrityError), w).
Proof.
  intros Hok Hl. unfold try_, transaction_atomic, ReleaseProject_objects_create.
  rewrite Hok. rewrite decide_True by (by right). by rewrite rollback_links.
Qed.

Lemma link_one_fresh release p (w : World) :
  link_fault w p = None → ¬ linked w release p → referenced w release p →
  try_ (transaction_atomic (ReleaseProject_objects_create p release)) w
  = (Return (Return (link_of release p)),
     with_releaseproject_table (λ t, t ++ [link_of release p]) w).
Proof.
  intros Hok Hl Hr. unfold try_, transaction_atomic, ReleaseProject_objects_create.
  rewrite Hok. by rewrite decide_False by (intros [?|?]; done).
Qed.

Lemma link_one_fault release p e (w : World) :
  link_fault w p = Some e →
  try_ (transaction_atomic (ReleaseProject_objects_create p release)) w
  = (Return (Raise e), w).
Proof.
  intros Hf. unfold try_, transaction_atomic, ReleaseProject_objects_create.
  rewrite Hf. by rewrite rollback_links.
Qed.

(** One round of the loop. *)
Lemma link_all_cons release p ps acc (w : World) :
  link_all release (p :: ps) acc w
  = match link_fault w p with
    | Some e => (Raise e, w)
    | None =>
        if decide (linked w release p ∨ ¬ referenced w release p)
        then link_all release ps acc w
        else link_all release ps (acc ++ [p])
               (with_releaseproject_table (λ t, t ++ [link_of release p]) w)
    end.
Proof.
  simpl. rewrite bind_unfold.
  destruct (link_fault w p) as [e|] eqn:Hf.
  - rewrite (link_one_fault _ _ e) by done.
    apply link_fault_other in Hf. by destruct e.
  - case_decide as Hv.
    + destruct Hv as [Hl|Hr]; [by rewrite link_one_linked|by rewrite link_one_dangling].
    + rewrite link_one_fresh; [done..| |]; [tauto|].
      destruct (decide (referenced w release p)); tauto.
Qed.

Lemma link_all_app release xs ys acc (w : World) :
  link_all release (xs ++ ys) acc w
  = match link_all release xs acc w with
    | (Return acc', w') => link_all release ys acc' w'
    | (Raise e, w') => (Raise e, w')
    end.
Proof.
  revert acc w. induction xs as [|x xs IH]; intros acc w; [done|].
  simpl. rewrite !bind_unfold.
  destruct (try_ _ w) as [[[rp|e]|e] w1]; [apply IH| |done].
  destruct e; done.
Qed.

Lemma filter_all {A} (P : A → Prop) `{!∀ x, Decision (P x)} (l : list A) :
  (∀ x, x ∈ l → P x) → filter P l = l.
Proof.
  induction l as [|a l IH]; intros Hall; [done|].
  rewrite filter_cons_True by (apply Hall; left).
  f_equal. apply IH. intros x Hx. apply Hall. by right.
Qed.

Lemma filter_agree {A} (P1 P2 : A → Prop)
    `{!∀ x, Decision (P1 x), !∀ x, Decision (P2 x)} (l : list A) :
  (∀ x, x ∈ l → P1 x ↔ P2 x) → filter P1 l = filter P2 l.
Proof.
  induction l as [|a l IH]; intros Hiff; [done|].
  assert (filter P1 l = filter P2 l) as E.
  { apply IH. intros x Hx. apply Hiff. by right. }
  destruct (decide (P1 a)) as [Ha|Ha].
  - rewrite !filter_cons_True; [by rewrite E| |done]. apply Hiff; [left|done].
  - rewrite !filter_cons_False; [done| |done]. intros Hb. apply Ha, Hiff; [left|done].
Qed.

Lemma unlinked_after_insert release p ps (w : World) :
  Project.id p ∉ (Project.id <$> ps) →
  unlinked (with_releaseproject_table (λ t, t ++ [link_of release p]) w) release ps
  = unlinked w release ps.
Proof.
  intros Hp. unfold unlinked. apply filter_agree.
  intros q Hq. unfold linked. simpl.
  rewrite elem_of_app, list_elem_of_singleton.
  split; [tauto|]. intros Hn [H|H]; [done|].
  apply Hp. apply list_elem_of_fmap. exists q. split; [|done].
  unfold link_of in H. by simplify_eq.
Qed.

(** With no failure other than violated constraints, the loop links
    exactly the projects whose insert violates none. *)
Lemma link_all_exact release ps acc (w : World) :
  NoDup (Project.id <$> ps) →
  (∀ p, p ∈ ps → link_fault w p = None) →
  link_all release ps acc w
  = (Return (acc ++ insertable w release ps),
     with_releaseproject_table
       (λ t, t ++ (link_of release <$> insertable w release ps)) w).
Proof.
  revert acc w. induction ps as [|p ps IH]; intros acc w Hnd Hok.
  - simpl. unfold mret, M_ret. unfold insertable, unlinked. simpl.
    by rewrite app_nil_r, with_releaseproject_table_nil.
  - rewrite fmap_cons in Hnd. apply NoDup_cons in Hnd as [Hp Hnd].
    rewrite link_all_cons, Hok by left.
    unfold insertable in *. case_decide as Hv.
    + rewrite IH; [|done|intros; apply Hok; by right].
      unfold unlinked. destruct (decide (linked w release p)) as [Hl|Hl].
      * by rewrite filter_cons_False by tauto.
      * rewrite filter_cons_True by done.
        rewrite filter_cons_False; [done|]. intros ?. destruct Hv; tauto.
    + rewrite IH; [|done|intros; rewrite link_fault_links; apply Hok; by right].
      rewrite unlinked_after_insert by done.
      rewrite with_releaseproject_table_app.
      unfold unlinked at 3 4. rewrite filter_cons_True by tauto.
      rewrite (filter_cons_True (referenced w release)).
      * rewrite <- app_assoc. simpl. f_equal.
      * destruct (decide (referenced w release p)); tauto.
Qed.

Lemma insertable_referenced release ps (w : World) :
  (∀ p, p ∈ ps → referenced w release p) →
  insertable w release ps = unlinked w release ps.
Proof.
  intros Hr. unfold insertable. apply filter_all.
  intros p Hp. apply Hr. by apply list_elem_of_filter in Hp as [_ Hp].
Qed.

Lemma link_all_ok release ps acc (w : World) :
  NoDup (Project.id <$> ps) →
  (∀ p, p ∈ ps → link_fault w p = None) →
  (∀ p, p ∈ ps → referenced w release p) →
  link_all release ps acc w
  = (Return (acc ++ unlinked w release ps),
     with_releaseproject_table
       (λ t, t ++ (link_of release <$> unlinked w release ps)) w).
Proof.
  intros Hnd Hok Hr. rewrite link_all_exact by done.
  by rewrite insertable_referenced.
Qed.

Lemma link_all_fault release before p after acc e (w : World) :
  NoDup (Project.id <$> before) →
  (∀ q, q ∈ before → link_fault w q = None) →
  link_fault w p = Some e →
  link_all release (before ++ p :: after) acc w
  = (Raise e,
     with_releaseproject_table
       (λ t, t ++ (link_of release <$> insertable w release before)) w).
Proof.
  intros Hnd Hok Hf. rewrite link_all_app, link_all_exact by done.
  by rewrite link_all_cons, link_fault_links, Hf.
Qed.

Lemma link_all_raises release ps acc (w w' : World) e :
  link_all release ps acc w = (Raise e, w') → e ≠ IntegrityError.
Proof.
  revert acc w. induction ps as [|p ps IH]; intros acc w; [done|].
  rewrite link_all_cons. destruct (link_fault w p) as [e'|] eqn:Hf.
  - intros [= <- <-]. by apply link_fault_other in Hf.
  - case_decide; apply IH.
Qed.

(** A successful run met no failing insert other than violated constraints
    and leaves every project linked that can be. *)
Lemma link_all_returns release ps acc (w w' : World) l :
  link_all release ps acc w = (Return l, w') →
  (∀ p, p ∈ ps → link_fault w p = None)
  ∧ (∀ p, p ∈ ps → referenced w release p → linked w' release p)
  ∧ ∃ added, w' = with_releaseproject_table (λ t, t ++ added) w.
Proof.
  revert acc w. induction ps as [|p ps IH]; intros acc w.
  - simpl. unfold mret, M_ret. intros [= <- <-].
    split_and!; [by intros p ?%elem_of_nil..|].
    exists []. by rewrite with_releaseproject_table_nil.
  - rewrite link_all_cons. destruct (link_fault w p) as [e|] eqn:Hf; [done|].
    case_decide as Hv.
    + intros H. apply IH in H as (Hok & Hall & added & ->).
      split_and!.
      * intros q [->|Hq]%elem_of_cons; auto.
      * intros q [->|Hq]%elem_of_cons Hr; [|by apply Hall].
        destruct Hv as [Hl|Hn]; [|by destruct Hn].
        unfold linked in *. simpl. apply elem_of_app. by left.
      * by exists added.
    + intros H. apply IH in H as (Hok & Hall & added & ->).
      split_and!.
      * intros q [->|Hq]%elem_of_cons; [done|by apply Hok].
      * intros q [->|Hq]%elem_of_cons Hr; [|by apply Hall].
        unfold linked. simpl. rewrite !elem_of_app, list_elem_of_singleton. auto.
      * exists (link_of release p :: added).
        rewrite with_releaseproject_table_app. done.
Qed.

Lemma link_all_all_linked release ps acc (w : World) :
  (∀ p, p ∈ ps → link_fault w p = None) →
  (∀ p, p ∈ ps → linked w release p) →
  link_all release ps acc w = (Return acc, w).
Proof.
  revert acc. induction ps as [|p ps IH]; intros acc Hok Hall; [done|].
  rewrite link_all_cons, Hok by left.
  rewrite decide_True by (left; apply Hall; left).
  apply IH; intros; [apply Hok|apply Hall]; by right.
Qed.

(** ** Notification (lines 154-163) *)

Lemma with_dispatch_nil (w : World) : with_dispatch [] [] w = w.
Proof. destruct w. unfold with_dispatch. simpl. by rewrite !app_nil_r. Qed.

Lemma with_dispatch_with_dispatch a1 e1 a2 e2 (w : World) :
  with_dispatch a2 e2 (with_dispatch a1 e1 w) = with_dispatch (a1 ++ a2) (e1 ++ e2) w.
Proof. destruct w. unfold with_dispatch. simpl. by rewrite !app_assoc. Qed.

Lemma notify_one_ok result date_released p (w : World) :
  Project.id p ∉ notify_faults w →
  (activity ← Activity_objects_create Activity.RELEASE p (Result.version result)
                (Result.version result) date_released;
   send_notification activity) w
  = (Return (),
     with_dispatch [release_activity (Result.version result) date_released p]
       (dispatch_of (Result.version result) date_released p) w).
Proof.
  intros Hok. rewrite bind_unfold. unfold Activity_objects_create, send_notification.
  simpl. rewrite decide_False by done.
  destruct w. unfold with_notification, with_activity, with_dispatch, dispatch_of.
  simpl. by rewrite <- app_assoc.
Qed.

Lemma notify_one_fault result date_released p (w : World) :
  Project.id p ∈ notify_faults w →
  (activity ← Activity_objects_create Activity.RELEASE p (Result.version result)
                (Result.version result) date_released;
   send_notification activity) w
  = (Raise NotificationError,
     with_dispatch [release_activity (Result.version result) date_released p]
       [Emitted (release_activity (Result.version result) date_released p)] w).
Proof.
  intros Hf. rewrite bind_unfold. unfold Activity_objects_create, send_notification.
  simpl. by rewrite decide_True by done.
Qed.

Lemma notify_all_cons result date_released p ps (w : World) :
  notify_all result date_released (p :: ps) w
  = match (activity ← Activity_objects_create Activity.RELEASE p (Result.version result)
                        (Result.version result) date_released;
           send_notification activity) w with
    | (Return _, w') => notify_all result date_released ps w'
    | (Raise e, w') => (Raise e, w')
    end.
Proof.
  simpl. rewrite !bind_unfold. unfold Activity_objects_create.
  rewrite bind_unfold. by destruct (send_notification _ _) as [[[]|e] w'].
Qed.

Lemma notify_all_app result date_released xs ys (w : World) :
  notify_all result date_released (xs ++ ys) w
  = match notify_all result date_released xs w with
    | (Return _, w') => notify_all result date_released ys w'
    | (Raise e, w') => (Raise e, w')
    end.
Proof.
  revert w. induction xs as [|x xs IH]; intros w; [done|].
  rewrite <- app_comm_cons, !notify_all_cons.
  destruct (_ ≫= _) as [[[]|e] w1]; [apply IH|done].
Qed.

Lemma notify_all_ok result date_released ps (w : World) :
  (∀ p, p ∈ ps → Project.id p ∉ notify_faults w) →
  notify_all result date_released ps w
  = (Return (),
     with_dispatch (release_activity (Result.version result) date_released <$> ps)
       (ps ≫= dispatch_of (Result.version result) date_released) w).
Proof.
  revert w. induction ps as [|p ps IH]; intros w Hok.
  - simpl. unfold mret, M_ret. by rewrite with_dispatch_nil.
  - rewrite notify_all_cons, notify_one_ok by (apply Hok; left).
    rewrite IH by (intros; apply Hok; by right).
    by rewrite with_dispatch_with_dispatch.
Qed.

Lemma notify_all_fault result date_released before p after (w : World) :
  (∀ q, q ∈ before → Project.id q ∉ notify_faults w) →
  Project.id p ∈ notify_faults w →
  notify_all result date_released (before ++ p :: after) w
  = (Raise NotificationError,
     with_dispatch
       (release_activity (Result.version result) date_released <$> (before ++ [p]))
       ((before ≫= dispatch_of (Result.version result) date_released)
          ++ [Emitted (release_activity (Result.version result) date_released p)]) w).
Proof.
  intros Hok Hf. rewrite notify_all_app, notify_all_ok by done.
  rewrite notify_all_cons, notify_one_fault by done.
  by rewrite with_dispatch_with_dispatch, fmap_app.
Qed.

Lemma notify_all_returns result date_released ps (w w' : World) u :
  notify_all result date_released ps w = (Return u, w') →
  ∀ p, p ∈ ps → Project.id p ∉ notify_faults w.
Proof.
  revert w. induction ps as [|p ps IH]; intros w H q Hq.
  - by apply elem_of_nil in Hq.
  - rewrite notify_all_cons in H.
    destruct (decide (Project.id p ∈ notify_faults w)) as [Hf|Hf].
    { by rewrite notify_one_fault in H. }
    rewrite notify_one_ok in H by done.
    apply elem_of_cons in Hq as [->|Hq]; [done|].
    by apply (IH _ H q Hq).
Qed.

Lemma notify_all_version r1 r2 date_released ps :
  Result.version r1 = Result.version r2 →
  notify_all r1 date_released ps = notify_all r2 date_released ps.
Proof.
  intros Hv. induction ps as [|p ps IH]; [done|].
  simpl. by rewrite Hv, IH.
Qed.

(** ** What the get-or-create section leaves behind *)

Lemma unresolved_dec (w : World) (organization : Organization.t) (result : Result.t) :
  Decision (∃ slug, slug ∈ Result.projects result
                    ∧ ¬ resolves w (Organization.id organization) slug).
Proof.
  destruct (decide ((list_to_set (Result.projects result)
     ∖ list_to_set (Project.slug <$> requested_projects w organization result)
     : gset string) ≠ ∅)) as [H|H]; [left|right];
    by rewrite <- invalid_projects_nonempty.
Defined.

Lemma get_or_create_shape organization result (w w1 : World) o :
  get_or_create_release organization result w = (o, w1) →
  ∃ new f events,
    w1 = with_locks f events (with_release_table (λ t, t ++ new) w)
    ∧ match o with
      | Return (release, created) =>
          stored_release w1 (Organization.id organization) (Result.version result)
            = Some release
          ∧ if created
            then new = [release]
                 ∧ stored_release w (Organization.id organization)
                     (Result.version result) = None
                 ∧ release = release_of_request (fresh_release_id (release_table w))
                               organization result
            else new = []
                 ∧ stored_release w (Organization.id organization)
                     (Result.version result) = Some release
      | Raise e => e = LockTimeout ∧ new = []
      end.
Proof.
  destruct (stored_release w (Organization.id organization) (Result.version result))
    as [r|] eqn:Hs.
  - rewrite (get_or_create_found _ _ _ _ Hs). intros [= <- <-].
    exists [], (λ l, l), []. split_and!; try done.
    destruct w. unfold with_locks, with_release_table. simpl. by rewrite !app_nil_r.
  - destruct (decide (get_lock_key (Organization.id organization)
                        (Result.version result) ∈ held_locks w)) as [Hh|Hh].
    + rewrite get_or_create_contended by done. intros [= <- <-].
      exists [], (λ l, l), (replicate 10 (Contended (get_lock_key
               (Organization.id organization) (Result.version result)))).
      split; [|done]. destruct w. unfold with_locks, with_release_table. simpl.
      by rewrite !app_nil_r.
    + rewrite get_or_create_created by done. intros [= <- <-].
      set (k := get_lock_key (Organization.id organization) (Result.version result)).
      exists [release_of_request (fresh_release_id (release_table w)) organization result],
        (λ l, filter (λ k', k' ≠ k) (k :: l)), [Acquired k; Released k].
      split.
      { destruct w. unfold with_locks, with_release_table. simpl.
        by rewrite <- app_assoc. }
      split_and!; try done.
      unfold stored_release in *. apply head_None in Hs. simpl.
      rewrite filter_app, Hs. simpl.
      by rewrite filter_cons_True, filter_nil.
Qed.

(** ** The stages of a run of [post] *)

Lemma attach_commits_returns result release (w : World) :
  ∃ added, attach_commits result release w
           = (Return (), mkWorld (project_table w) (release_table w)
                (releaseproject_table w) (activity_table w) (commit_table w ++ added)
                (held_locks w) (lock_journal w) (dispatch_journal w)
                (link_faults w) (notify_faults w)).
Proof.
  unfold attach_commits, set_commits, with_commits.
  destruct (Result.commits result) as [[|c cs]|].
  - exists []. unfold mret, M_ret. destruct w. simpl. by rewrite app_nil_r.
  - by eexists [_].
  - exists []. unfold mret, M_ret. destruct w. simpl. by rewrite app_nil_r.
Qed.

Lemma post_runs result organization (w w' : World) o :
  post (inr result) organization w = (o, w') → post_run result organization w o w'.
Proof.
  destruct (unresolved_dec w organization result) as [Hu|Hu].
  { rewrite post_invalid by done. intros [= <- <-]. by constructor. }
  rewrite post_valid by done. rewrite bind_unfold.
  destruct (get_or_create_release organization result w) as [[[release created]|e] w1] eqn:E1;
    [|intros [= <- <-]; by econstructor].
  rewrite bind_unfold.
  destruct (link_all release _ [] w1) as [[new_projects|e] w2] eqn:E2;
    [|intros [= <- <-]; by eapply run_link_failed].
  rewrite bind_unfold.
  destruct (notify_if_live result release new_projects w2) as [[u|e] w3] eqn:E3;
    [|intros [= <- <-]; by eapply run_notify_failed].
  rewrite bind_unfold.
  destruct (attach_commits_returns result release w3) as [added E4].
  rewrite E4. unfold mret, M_ret. intros [= <- <-].
  eapply run_complete; try done.
  intros slug Hin Hn. apply Hu. by exists slug.
Qed.

(** Case analysis on a run of [post], with the names used throughout. *)
Ltac post_cases H :=
  apply post_runs in H;
  destruct H as [Hu|e w1 E1|release created w1 e w2 E1 E2
                |release created w1 new_projects w2 e w3 E1 E2 E3
                |release created w1 new_projects w2 u w3 u' w4 Hr E1 E2 E3 E4].

(** ** Frames: what each stage can touch *)

Lemma link_all_frame release ps acc (w w' : World) o :
  link_all release ps acc w = (o, w') →
  ∃ added, w' = with_releaseproject_table (λ t, t ++ added) w.
Proof.
  revert acc w. induction ps as [|p ps IH]; intros acc w.
  - simpl. unfold mret, M_ret. intros [= <- <-].
    exists []. by rewrite with_releaseproject_table_nil.
  - rewrite link_all_cons. destruct (link_fault w p) as [e|].
    { intros [= <- <-]. exists []. by rewrite with_releaseproject_table_nil. }
    case_decide.
    + apply IH.
    + intros (added & ->)%IH.
      exists (link_of release p :: added). by rewrite with_releaseproject_table_app.
Qed.

Lemma notify_all_frame result date_released ps (w w' : World) o :
  notify_all result date_released ps w = (o, w') →
  ∃ activities events, w' = with_dispatch activities events w.
Proof.
  revert w. induction ps as [|p ps IH]; intros w.
  - simpl. unfold mret, M_ret. intros [= <- <-].
    exists [], []. by rewrite with_dispatch_nil.
  - rewrite notify_all_cons.
    destruct (decide (Project.id p ∈ notify_faults w)) as [Hf|Hf].
    { rewrite notify_one_fault by done. intros [= <- <-]. by eexists _, _. }
    rewrite notify_one_ok by done. intros (activities & events & ->)%IH.
    eexists _, _. by rewrite with_dispatch_with_dispatch.
Qed.

Lemma notify_if_live_frame result release ps (w w' : World) o :
  notify_if_live result release ps w = (o, w') →
  ∃ activities events, w' = with_dispatch activities events w.
Proof.
  unfold notify_if_live. destruct (Release.date_released release).
  - apply notify_all_frame.
  - unfold mret, M_ret. intros [= <- <-]. exists [], []. by rewrite with_dispatch_nil.
Qed.

Lemma requested_projects_NoDup (w : World) organization result :
  NoDup (Project.id <$> project_table w) →
  NoDup (Project.id <$> requested_projects w organization result).
Proof.
  intros H. eapply sublist_NoDup; [exact H|].
  unfold requested_projects. apply fmap_sublist, sublist_filter.
Qed.

Lemma stored_release_elem (w : World) o v release :
  stored_release w o v = Some release →
  release ∈ release_table w ∧ is_release o v release.
Proof.
  unfold stored_release. intros H.
  assert (release ∈ filter (is_release o v) (release_table w)) as Hin.
  { destruct (filter _ _) as [|x l]; [done|]. simpl in H. simplify_eq. left. }
  apply list_elem_of_filter in Hin. tauto.
Qed.

(** The rows that the links of a run of [post] refer to are stored. *)
Lemma requested_projects_referenced organization result (w w1 : World) release :
  project_table w1 = project_table w →
  stored_release w1 (Organization.id organization) (Result.version result)
    = Some release →
  ∀ p, p ∈ requested_projects w organization result → referenced w1 release p.
Proof.
  intros Hp [Hin _]%stored_release_elem p [_ Hq]%list_elem_of_filter. split.
  - rewrite Hp. apply list_elem_of_fmap. by exists p.
  - apply list_elem_of_fmap. by exists release.
Qed.

(** ** Claims about validation, linking and notification *)

(** C6 (as amended). If some requested project slug does not resolve for
    the organization, [post] answers at once with status 400 and the fixed
    message "Invalid project slugs" (which does not name the slugs), and the
    world is left exactly as it was: no lock is tried, no release, link or
    activity is written. *)
Theorem invalid_slugs_rejected_without_effect
    (w : World) (organization : Organization.t) (result : Result.t) (slug : string) :
  slug ∈ Result.projects result →
  ¬ resolves w (Organization.id organization) slug →
  post (inr result) organization w
  = (Return (mkResponse (Errors [("projects", ["Invalid project slugs"])]) 400), w).
Proof.
  intros Hin Hun. apply post_invalid. by exists slug.
Qed.

Lemma invalid_slugs_rejected_witness :
  post (inr (request "1.0" None ["web"; "ghost"])) acme empty_world
  = (Return (mkResponse (Errors [("projects", ["Invalid project slugs"])]) 400),
     empty_world).
Proof.
  apply (invalid_slugs_rejected_without_effect empty_world acme
           (request "1.0" None ["web"; "ghost"]) "ghost").
  - simpl. set_solver.
  - intros (p & Hp & _ & Hslug). unfold empty_world in Hp. simpl in Hp.
    rewrite !elem_of_cons, elem_of_nil in Hp.
    destruct Hp as [->|[->|[->|[]]]]; discriminate.
Defined.

(** C6 (as stated) fails: the response to a request that names the unknown
    slug "ghost" is the same fixed message as for any other unknown slug,
    and no message in it contains "ghost". *)
Lemma invalid_slugs_not_reported :
  ∃ response,
    post (inr (request "1.0" None ["web"; "ghost"])) acme empty_world
      = (Return response, empty_world)
    ∧ post (inr (request "1.0" None ["phantom"])) acme empty_world
      = (Return response, empty_world)
    ∧ "ghost" ∈ Result.projects (request "1.0" None ["web"; "ghost"])
    ∧ ¬ resolves empty_world (Organization.id acme) "ghost"
    ∧ ¬ reports response "ghost".
Proof.
  exists invalid_slugs_response. split_and!.
  - by vm_compute.
  - by vm_compute.
  - simpl. set_solver.
  - intros (p & Hp & _ & Hslug). unfold empty_world in Hp. simpl in Hp.
    rewrite !elem_of_cons, elem_of_nil in Hp.
    destruct Hp as [->|[->|[->|[]]]]; discriminate.
  - unfold reports. simpl. intros (field & messages & message & H1 & H2 & H3).
    apply list_elem_of_singleton in H1. simplify_eq.
    apply list_elem_of_singleton in H2. subst message.
    by vm_compute in H3.
Qed.

(** C4 (as amended). [link_all] attempts one insert per project, each in a
    transaction of its own.  An integrity failure of an insert never reaches
    the caller, be it the duplicate key or another violated constraint
    (line 149 catches the one exception class): with no other failure the
    call returns exactly the projects whose insert violates no constraint
    and adds exactly their links, so that a failed insert leaves nothing
    behind.  Any failure that is not an integrity failure propagates as it
    is; the links inserted before it stay, and the failing insert leaves
    nothing. *)
Theorem link_all_swallows_integrity_failures_only
    (release : Release.t) (projects : list Project.t) (w : World) :
  NoDup (Project.id <$> projects) →
  (∀ o w', link_all release projects [] w = (o, w') → o ≠ Raise IntegrityError)
  ∧ ((∀ p, p ∈ projects → link_fault w p = None) →
     link_all release projects [] w
     = (Return (insertable w release projects),
        with_releaseproject_table
          (λ t, t ++ (link_of release <$> insertable w release projects)) w))
  ∧ (∀ before p after e,
       projects = before ++ p :: after →
       (∀ q, q ∈ before → link_fault w q = None) →
       link_fault w p = Some e →
       e ≠ IntegrityError
       ∧ link_all release projects [] w
         = (Raise e,
            with_releaseproject_table
              (λ t, t ++ (link_of release <$> insertable w release before)) w)).
Proof.
  intros Hnd. split_and!.
  - intros [l|e] w' H; [done|]. apply link_all_raises in H. congruence.
  - intros Hok. by rewrite link_all_exact.
  - intros before p after e -> Hok Hf. split; [by apply link_fault_other in Hf|].
    apply link_all_fault; try done.
    rewrite fmap_app in Hnd. by apply NoDup_app in Hnd as [? _].
Qed.

Lemma link_all_swallows_integrity_failures_witness :
  link_all live_release [web; ghost; api] [] linked_world
  = (Return [api],
     with_releaseproject_table (λ t, t ++ [ReleaseProject.mk 2 1]) linked_world)
  ∧ link_all live_release [api; web; ghost] [] failing_world
    = (Raise OperationalError,
       with_releaseproject_table (λ t, t ++ [ReleaseProject.mk 2 1]) failing_world).
Proof.
  split.
  - assert (NoDup (Project.id <$> [web; ghost; api])) as Hnd.
    { apply (bool_decide_unpack _). by vm_compute. }
    destruct (link_all_swallows_integrity_failures_only live_release [web; ghost; api]
                linked_world Hnd) as (_ & H & _).
    rewrite H; [by vm_compute|]. by intros p _.
  - assert (NoDup (Project.id <$> [api; web; ghost])) as Hnd.
    { apply (bool_decide_unpack _). by vm_compute. }
    destruct (link_all_swallows_integrity_failures_only live_release [api; web; ghost]
                failing_world Hnd) as (_ & _ & H).
    destruct (H [api] web [ghost] OperationalError) as [_ ->]; [done| |by vm_compute..].
    intros q ->%list_elem_of_singleton. by vm_compute.
Defined.

(** C4 (as stated) fails.  Line 110 reads the project "ghost"; its row is
    deleted before the loop reaches it.  The pair is not stored, so the
    insert meets no duplicate key: it fails for another reason, the missing
    row, and with the same [IntegrityError].  Line 149 catches it all the
    same, and the failure does not propagate. *)
Lemma dangling_reference_is_swallowed :
  requested_projects haunted_world acme (request "2.0" (Some 100%Z) ["ghost"])
  = [ghost]
  ∧ project_table linked_world = filter (λ p, p ≠ ghost) (project_table haunted_world)
  ∧ ¬ linked linked_world live_release ghost
  ∧ link_fault linked_world ghost = None
  ∧ (ReleaseProject_objects_create ghost live_release linked_world).1
    = Raise IntegrityError
  ∧ link_all live_release [ghost] [] linked_world = (Return [], linked_world).
Proof.
  split_and!; try (by vm_compute).
  unfold linked. simpl. by intros ?%list_elem_of_singleton.
Qed.

(** C9 (as amended). Notification is fail-fast: when the dispatch for one
    newly-linked project of a live release fails, the failure propagates;
    the events of the projects before it and the activity of the failing
    project itself have been emitted, and nothing is emitted for the
    projects after it. *)
Theorem notification_failure_propagates
    (result : Result.t) (release : Release.t) (date_released : datetime)
    (before after : list Project.t) (p : Project.t) (w : World) :
  Release.date_released release = Some date_released →
  (∀ q, q ∈ before → Project.id q ∉ notify_faults w) →
  Project.id p ∈ notify_faults w →
  notify_if_live result release (before ++ p :: after) w
  = (Raise NotificationError,
     with_dispatch
       (release_activity (Result.version result) date_released <$> (before ++ [p]))
       ((before ≫= dispatch_of (Result.version result) date_released)
          ++ [Emitted (release_activity (Result.version result) date_released p)]) w).
Proof.
  intros Hlive Hok Hf. unfold notify_if_live. rewrite Hlive.
  by apply notify_all_fault.
Qed.

Lemma notification_failure_propagates_witness :
  notify_if_live (request "2.0" (Some 100%Z) ["web"; "api"]) live_release [web; api]
    deaf_world
  = (Raise NotificationError,
     with_dispatch [release_activity "2.0" 100%Z web]
       [Emitted (release_activity "2.0" 100%Z web)] deaf_world).
Proof.
  apply (notification_failure_propagates (request "2.0" (Some 100%Z) ["web"; "api"])
           live_release 100%Z [] [api] web deaf_world).
  - reflexivity.
  - intros q Hq. by apply elem_of_nil in Hq.
  - simpl. by apply list_elem_of_singleton.
Defined.

(** C9 (as stated) fails, in whichever order line 110 returns the
    projects.  The dispatcher fails for "web" and for "api", both newly
    linked to the live release.  Handled in the order web, api, the call
    raises after the activity of "web" and none is emitted for "api";
    handled in the order api, web, it raises after the activity of "api"
    and none is emitted for "web". *)
Lemma notification_failure_blocks_the_rest :
  ∃ w' w'',
    post (inr (request "2.0" (Some 100%Z) ["web"; "api"])) acme mute_world
      = (Raise NotificationError, w')
    ∧ post (inr (request "2.0" (Some 100%Z) ["web"; "api"])) acme mute_world_reversed
      = (Raise NotificationError, w'')
    ∧ requested_projects mute_world acme (request "2.0" (Some 100%Z) ["web"; "api"])
      = [web; api]
    ∧ requested_projects mute_world_reversed acme
        (request "2.0" (Some 100%Z) ["web"; "api"])
      = [api; web]
    ∧ releaseproject_table w' = [ReleaseProject.mk 1 1; ReleaseProject.mk 2 1]
    ∧ activity_table w' = [release_activity "2.0" 100%Z web]
    ∧ releaseproject_table w'' = [ReleaseProject.mk 2 1; ReleaseProject.mk 1 1]
    ∧ activity_table w'' = [release_activity "2.0" 100%Z api].
Proof.
  eexists _, _. split; [by vm_compute|]. split; [by vm_compute|].
  split_and!; by vm_compute.
Qed.

(** C3. A run of [post] emits nothing when the stored release is not live,
    whatever it links and however it ends.  When the run answers with a
    release that is live, it emits one activity per project newly linked by
    this very call and for no other project, stamped with the release's
    [date_released], each followed in the journal by its notification. *)
Theorem activities_only_for_new_links_of_live_release
    (w w' : World) (organization : Organization.t) (result : Result.t)
    (o : outcome Response) :
  NoDup (Project.id <$> project_table w) →
  post (inr result) organization w = (o, w') →
  ((∀ r, stored_release w' (Organization.id organization) (Result.version result)
           = Some r → Release.date_released r = None) →
   activity_table w' = activity_table w ∧ dispatch_journal w' = dispatch_journal w)
  ∧ (∀ release st,
       o = Return (mkResponse (Serialized release) st) →
       let newly := unlinked w release (requested_projects w organization result) in
       releaseproject_table w' = releaseproject_table w ++ (link_of release <$> newly)
       ∧ match Release.date_released release with
         | None =>
             activity_table w' = activity_table w
             ∧ dispatch_journal w' = dispatch_journal w
         | Some date_released =>
             activity_table w'
             = activity_table w
               ++ (release_activity (Result.version result) date_released <$> newly)
             ∧ dispatch_journal w'
               = dispatch_journal w
                 ++ (newly ≫= dispatch_of (Result.version result) date_released)
         end).
Proof.
  intros Hnd Hpost. post_cases Hpost.
  - split; [done|]. intros release st [=].
  - apply get_or_create_shape in E1 as (new & f & events & -> & _).
    split; [done|]. intros release st [=].
  - apply get_or_create_shape in E1 as (new & f & events & -> & _).
    apply link_all_frame in E2 as (added & ->).
    split; [done|]. intros release' st [=].
  - apply get_or_create_shape in E1 as (new & f & events & -> & Hst & _).
    apply link_all_frame in E2 as (added & ->).
    split; [|intros release' st [=]].
    intros Hdead. pose proof E3 as (activities & evs & ->)%notify_if_live_frame.
    apply Hdead in Hst. unfold notify_if_live in E3. by rewrite Hst in E3.
  - apply get_or_create_shape in E1 as (new & f & events & -> & Hst & _).
    destruct (attach_commits_returns result release w3) as [commits E4'].
    rewrite E4' in E4. injection E4 as <- <-. split.
    + intros Hdead. apply link_all_frame in E2 as (added & ->).
      pose proof E3 as (activities & evs & ->)%notify_if_live_frame.
      apply Hdead in Hst. unfold notify_if_live in E3. rewrite Hst in E3.
      unfold mret, M_ret in E3. injection E3 as _ Ha Hd. simpl.
      by rewrite <- Ha, <- Hd.
    + intros release' st [= <- _]. intros newly.
      pose proof (link_all_returns _ _ _ _ _ _ E2) as (Hok & _ & _).
      rewrite link_all_ok in E2;
        [|by apply requested_projects_NoDup|done
         |by apply (requested_projects_referenced organization result)].
      injection E2 as <- <-. unfold notify_if_live in E3.
      destruct (Release.date_released release) as [date_released|].
      * pose proof (notify_all_returns _ _ _ _ _ _ E3) as Hnok.
        rewrite notify_all_ok in E3 by done. by injection E3 as _ <-.
      * unfold mret, M_ret in E3. by injection E3 as _ <-.
Qed.

Lemma activities_only_for_new_links_witness :
  let w' := (post (inr (request "2.0" (Some 100%Z) ["web"; "api"])) acme empty_world).2 in
  activity_table w' = [release_activity "2.0" 100%Z web; release_activity "2.0" 100%Z api]
  ∧ dispatch_journal w'
    = dispatch_of "2.0" 100%Z web ++ dispatch_of "2.0" 100%Z api.
Proof.
  intros w'.
  assert (NoDup (Project.id <$> project_table empty_world)) as Hnd.
  { apply (bool_decide_unpack _). by vm_compute. }
  destruct (activities_only_for_new_links_of_live_release empty_world w' acme
              (request "2.0" (Some 100%Z) ["web"; "api"]) _ Hnd
              (surjective_pairing _)) as [_ H].
  specialize (H (Release.mk 1 7 "2.0" None None None None (Some 100%Z)) 201).
  destruct H as [_ [Ha Hd]]; [by vm_compute|].
  rewrite Ha, Hd. by vm_compute.
Defined.

(** ** The footprint of [post] *)

Lemma extends_refl (w : World) : extends w w.
Proof.
  exists [], [], [], [], (λ l, l), [], []. destruct w. simpl. by rewrite !app_nil_r.
Qed.

Lemma post_extends request_data organization (w w' : World) o :
  post request_data organization w = (o, w') → extends w w'.
Proof.
  destruct request_data as [errors|result].
  { simpl. unfold mret, M_ret. intros [= <- <-]. apply extends_refl. }
  intros Hpost. post_cases Hpost.
  - apply extends_refl.
  - apply get_or_create_shape in E1 as (new & f & events & -> & _).
    exists new, [], [], [], f, events, []. unfold with_locks, with_release_table.
    simpl. by rewrite !app_nil_r.
  - apply get_or_create_shape in E1 as (new & f & events & -> & _).
    apply link_all_frame in E2 as (added & ->).
    exists new, added, [], [], f, events, [].
    unfold with_locks, with_release_table, with_releaseproject_table.
    simpl. by rewrite !app_nil_r.
  - apply get_or_create_shape in E1 as (new & f & events & -> & _).
    apply link_all_frame in E2 as (added & ->).
    apply notify_if_live_frame in E3 as (activities & evs & ->).
    exists new, added, activities, [], f, events, evs.
    unfold with_locks, with_release_table, with_releaseproject_table, with_dispatch.
    simpl. by rewrite !app_nil_r.
  - apply get_or_create_shape in E1 as (new & f & events & -> & _).
    apply link_all_frame in E2 as (added & ->).
    apply notify_if_live_frame in E3 as (activities & evs & ->).
    destruct (attach_commits_returns result release
                (with_dispatch activities evs
                   (with_releaseproject_table (λ t, t ++ added)
                      (with_locks f events
                         (with_release_table (λ t, t ++ new) w))))) as [commits E4'].
    rewrite E4' in E4. injection E4 as <- <-.
    by exists new, added, activities, commits, f, events, evs.
Qed.

Lemma stored_release_app (w : World) o v release new :
  stored_release w o v = Some release →
  head (filter (is_release o v) (release_table w ++ new)) = Some release.
Proof.
  unfold stored_release. rewrite filter_app.
  destruct (filter (is_release o v) (release_table w)); [done|]. done.
Qed.

Lemma stored_release_extends (w w' : World) o v release :
  extends w w' → stored_release w o v = Some release →
  stored_release w' o v = Some release.
Proof.
  intros (new & added & activities & commits & f & le & e & ->) H.
  unfold stored_release at 1. simpl. by apply stored_release_app.
Qed.

(** ** Claims about idempotence *)

Lemma replay_extends requests organization (w : World) release o v :
  stored_release w o v = Some release →
  stored_release (replay requests organization w) o v = Some release.
Proof.
  revert w. induction requests as [|rq requests IH]; intros w H; [done|].
  simpl. apply IH.
  eapply stored_release_extends; [|exact H].
  eapply post_extends. apply surjective_pairing.
Qed.

(** C8. [post] never rewrites or removes a stored release: the release
    table only grows, and it does not grow when the requested release is
    already stored.  An answer 208 leaves the table as it was; an answer
    201 adds exactly the release built from the fields of that request.
    Once a release is stored, it stays the stored release through any
    sequence of later requests. *)
Theorem stored_release_fields_are_never_overwritten
    (w w' : World) (organization : Organization.t) (result : Result.t)
    (o : outcome Response) :
  post (inr result) organization w = (o, w') →
  (∃ new, release_table w' = release_table w ++ new
          ∧ ∀ release,
              stored_release w (Organization.id organization) (Result.version result)
                = Some release → new = [])
  ∧ (∀ release, o = Return (mkResponse (Serialized release) 208) →
       release_table w' = release_table w
       ∧ stored_release w (Organization.id organization) (Result.version result)
         = Some release)
  ∧ (∀ release, o = Return (mkResponse (Serialized release) 201) →
       release_table w' = release_table w ++ [release]
       ∧ release = release_of_request (fresh_release_id (release_table w))
                     organization result)
  ∧ (∀ release later,
       stored_release w' (Organization.id organization) (Result.version result)
         = Some release →
       stored_release (replay later organization w') (Organization.id organization)
         (Result.version result) = Some release).
Proof.
  intros Hpost. split_and!; [| | |intros release later; apply replay_extends].
  - post_cases Hpost.
    + exists []. by rewrite app_nil_r.
    + apply get_or_create_shape in E1 as (new & f & events & -> & _ & ->).
      exists []. by split.
    + apply get_or_create_shape in E1 as (new & f & events & -> & Hs & Hc).
      apply link_all_frame in E2 as (added & ->).
      exists new. split; [done|]. intros r Hr.
      destruct created; [|tauto]. destruct Hc as (_ & Hc & _). congruence.
    + apply get_or_create_shape in E1 as (new & f & events & -> & Hs & Hc).
      apply link_all_frame in E2 as (added & ->).
      apply notify_if_live_frame in E3 as (activities & evs & ->).
      exists new. split; [done|]. intros r Hr.
      destruct created; [|tauto]. destruct Hc as (_ & Hc & _). congruence.
    + apply get_or_create_shape in E1 as (new & f & events & -> & Hs & Hc).
      apply link_all_frame in E2 as (added & ->).
      apply notify_if_live_frame in E3 as (activities & evs & ->).
      destruct (attach_commits_returns result release
                  (with_dispatch activities evs
                     (with_releaseproject_table (λ t, t ++ added)
                        (with_locks f events
                           (with_release_table (λ t, t ++ new) w))))) as [commits E4'].
      rewrite E4' in E4. injection E4 as <- <-.
      exists new. split; [done|]. intros r Hr'.
      destruct created; [|tauto]. destruct Hc as (_ & Hc & _). congruence.
  - intros release ->. apply post_runs in Hpost.
    inversion Hpost as [| | | |release' created w1 new_projects w2 u w3 u' w4 Hr E1 E2 E3 E4 Ho];
      subst.
    destruct created; [done|].
    apply get_or_create_shape in E1 as (new & f & events & -> & Hs & -> & Hc).
    apply link_all_frame in E2 as (added & ->).
    apply notify_if_live_frame in E3 as (activities & evs & ->).
    destruct (attach_commits_returns result release
                (with_dispatch activities evs
                   (with_releaseproject_table (λ t, t ++ added)
                      (with_locks f events
                         (with_release_table (λ t, t ++ []) w))))) as [commits E4'].
    rewrite E4' in E4. simplify_eq. simpl. by rewrite app_nil_r.
  - intros release ->. apply post_runs in Hpost.
    inversion Hpost as [| | | |release' created w1 new_projects w2 u w3 u' w4 Hr E1 E2 E3 E4 Ho];
      subst.
    destruct created; [|done].
    apply get_or_create_shape in E1 as (new & f & events & -> & Hs & -> & _ & Hc).
    apply link_all_frame in E2 as (added & ->).
    apply notify_if_live_frame in E3 as (activities & evs & ->).
    destruct (attach_commits_returns result release
                (with_dispatch activities evs
                   (with_releaseproject_table (λ t, t ++ added)
                      (with_locks f events
                         (with_release_table (λ t, t ++ [release]) w))))) as [commits E4'].
    rewrite E4' in E4. by simplify_eq.
Qed.

Lemma stored_release_fields_witness :
  release_table
    (post (inr (Result.mk "2.0" (Some "abc") (Some "http://x") (Some 3) (Some 5%Z)
                  (Some 9%Z) ["web"; "api"] None)) acme linked_world).2
  = [live_release].
Proof.
  destruct (stored_release_fields_are_never_overwritten linked_world _ acme
              (Result.mk "2.0" (Some "abc") (Some "http://x") (Some 3) (Some 5%Z)
                 (Some 9%Z) ["web"; "api"] None) _ (surjective_pairing _))
    as ((new & Htable & Hnew) & _).
  rewrite Htable, (Hnew live_release); [done|]. by vm_compute.
Defined.

(** C10. When the requested release is already stored, the optional fields
    of the request play no part: two requests that agree on version,
    projects and commits produce the same outcome and the same world
    (tables and journals alike).  In particular a request for a stored
    release that is not live leaves the release table as it was, so the
    release stays not live, and emits nothing, whatever [dateReleased] it
    carries. *)
Theorem optional_fields_ignored_once_stored
    (w : World) (organization : Organization.t) (r1 r2 : Result.t)
    (release : Release.t) :
  stored_release w (Organization.id organization) (Result.version r1) = Some release →
  Result.version r1 = Result.version r2 →
  Result.projects r1 = Result.projects r2 →
  Result.commits r1 = Result.commits r2 →
  post (inr r1) organization w = post (inr r2) organization w
  ∧ (Release.date_released release = None →
     ∀ o w', post (inr r1) organization w = (o, w') →
       release_table w' = release_table w
       ∧ activity_table w' = activity_table w
       ∧ dispatch_journal w' = dispatch_journal w).
Proof.
  intros Hs Hv Hp Hc. split.
  - destruct (unresolved_dec w organization r1) as [Hu|Hu].
    + rewrite !post_invalid; [done| |done]. by rewrite <- Hp.
    + rewrite !post_valid; [|by rewrite <- Hp|done].
      rewrite !bind_unfold.
      rewrite (get_or_create_found organization r1 w release Hs).
      rewrite (get_or_create_found organization r2 w release) by (by rewrite <- Hv).
      rewrite !bind_unfold. unfold requested_projects. rewrite <- Hp.
      destruct (link_all release _ [] w) as [[new_projects|e] w2]; [|done].
      rewrite !bind_unfold.
      assert (notify_if_live r1 release new_projects
              = notify_if_live r2 release new_projects) as ->.
      { unfold notify_if_live. destruct (Release.date_released release); [|done].
        by apply notify_all_version. }
      destruct (notify_if_live r2 release new_projects w2) as [[u|e] w3]; [|done].
      rewrite !bind_unfold. unfold attach_commits. by rewrite Hc.
  - intros Hdead o w' Hpost.
    apply post_runs in Hpost.
    destruct Hpost as [Hu|e w1 E1|release' created w1 e w2 E1 E2
                      |release' created w1 new_projects w2 e w3 E1 E2 E3
                      |release' created w1 new_projects w2 u w3 u' w4 Hr E1 E2 E3 E4];
      try rewrite (get_or_create_found organization r1 w release Hs) in E1.
    + done.
    + done.
    + injection E1 as <- <- <-. by apply link_all_frame in E2 as (added & ->).
    + unfold notify_if_live in E3. injection E1 as <- <- <-.
      rewrite Hdead in E3. done.
    + unfold notify_if_live in E3. injection E1 as <- <- <-.
      rewrite Hdead in E3. unfold mret, M_ret in E3. injection E3 as _ <-.
      apply link_all_frame in E2 as (added & ->).
      destruct (attach_commits_returns r1 release
                  (with_releaseproject_table (λ t, t ++ added) w)) as [commits E4'].
      rewrite E4' in E4. by injection E4 as _ <-.
Qed.

Lemma optional_fields_ignored_witness :
  post (inr (request "2.0" None ["web"; "api"])) acme linked_world
  = post (inr (Result.mk "2.0" (Some "abc") (Some "http://x") (Some 3) (Some 5%Z)
                 (Some 9%Z) ["web"; "api"] None)) acme linked_world.
Proof.
  apply (optional_fields_ignored_once_stored linked_world acme
           (request "2.0" None ["web"; "api"])
           (Result.mk "2.0" (Some "abc") (Some "http://x") (Some 3) (Some 5%Z)
              (Some 9%Z) ["web"; "api"] None) live_release); reflexivity.
Defined.

Lemma resolves_extends (w w' : World) o slug :
  extends w w' → resolves w' o slug ↔ resolves w o slug.
Proof. by intros (new & added & activities & commits & f & le & e & ->). Qed.

Lemma requested_projects_extends (w w' : World) organization result :
  extends w w' →
  requested_projects w' organization result = requested_projects w organization result.
Proof. by intros (new & added & activities & commits & f & le & e & ->). Qed.

(** C7. [post] reports the two successful outcomes apart: status 201 exactly
    when the release was not stored before the call, status 208 exactly when
    it was.  Repeating the same call after a successful one answers 208 with
    the same release, and adds no release, no link and no activity. *)
Theorem repeated_create_is_reported_as_existing
    (w w1 : World) (organization : Organization.t) (result : Result.t)
    (release : Release.t) (st : nat) :
  post (inr result) organization w
    = (Return (mkResponse (Serialized release) st), w1) →
  (st = 201
     ∧ stored_release w (Organization.id organization) (Result.version result) = None
   ∨ st = 208
     ∧ stored_release w (Organization.id organization) (Result.version result)
       = Some release)
  ∧ ∃ w2,
      post (inr result) organization w1
        = (Return (mkResponse (Serialized release) 208), w2)
      ∧ release_table w2 = release_table w1
      ∧ releaseproject_table w2 = releaseproject_table w1
      ∧ activity_table w2 = activity_table w1
      ∧ dispatch_journal w2 = dispatch_journal w1.
Proof.
  intros Hpost. pose proof (post_extends _ _ _ _ _ Hpost) as Hext.
  apply post_runs in Hpost.
  inversion Hpost as [| | | |release' created w1' new_projects w2' u w3 u' w4 Hr E1 E2 E3 E4 Ho];
    subst.
  pose proof (get_or_create_shape _ _ _ _ _ E1) as (new & f & events & Hw1 & Hst & Hc).
  pose proof (link_all_returns _ _ _ _ _ _ E2) as (Hok & Hall & added & Hw2).
  pose proof (notify_if_live_frame _ _ _ _ _ _ E3) as (activities & evs & Hw3).
  destruct (attach_commits_returns result release w3) as [commits E4'].
  rewrite E4' in E4. injection E4 as <-. clear E4'.
  split.
  { destruct created; [left|right]; tauto. }
  (* the second call *)
  assert (stored_release w1 (Organization.id organization) (Result.version result)
          = Some release) as Hst1.
  { subst. exact Hst. }
  assert (∀ p, p ∈ requested_projects w organization result →
               link_fault w1 p = None ∧ linked w1 release p) as Hlinked.
  { intros p Hp. subst. split; [by apply Hok|]. apply Hall; [done|].
    by apply (requested_projects_referenced organization result w). }
  clear E1 E2 E3 Hst Hc Hok Hall Hw1 Hw2 Hw3 Hpost.
  destruct (attach_commits_returns result release w1) as [commits' E5].
  eexists. split.
  - rewrite post_valid.
    2:{ intros (slug & Hin & Hun). apply (Hr slug Hin).
        by rewrite <- (resolves_extends w w1). }
    rewrite bind_unfold, (get_or_create_found _ _ _ _ Hst1).
    rewrite bind_unfold, (requested_projects_extends w w1) by done.
    rewrite link_all_all_linked by (intros p Hp; by apply Hlinked).
    rewrite bind_unfold.
    assert (notify_if_live result release [] w1 = (Return (), w1)) as ->.
    { unfold notify_if_live. by destruct (Release.date_released release). }
    rewrite bind_unfold, E5. reflexivity.
  - done.
Qed.

Lemma repeated_create_witness :
  ∃ w2,
    post (inr (request "1.0" None ["web"])) acme
      (post (inr (request "1.0" None ["web"])) acme empty_world).2
    = (Return (mkResponse (Serialized (Release.mk 1 7 "1.0" None None None None None))
         208), w2).
Proof.
  destruct (repeated_create_is_reported_as_existing empty_world
              (post (inr (request "1.0" None ["web"])) acme empty_world).2 acme
              (request "1.0" None ["web"])
              (Release.mk 1 7 "1.0" None None None None None) 201)
    as (_ & w2 & H & _); [by vm_compute|].
  by exists w2.
Defined.

(** ** Claims about the lock *)

(** C5. The retry policy makes at most [maxAttempts] attempts.  Against a
    lock that stays held, [n] attempts are made, each one contended, and the
    policy then raises [LockTimeout]; a failure of any other kind is raised
    by the first attempt and nothing is retried.  For [post] this means: a
    request for a release that is not stored, whose lock is held throughout,
    ends in [LockTimeout] after exactly 10 contended attempts and no other
    effect. *)
Theorem lock_acquisition_is_bounded :
  (∀ (n : nat) (lock : Lock.t) (w : World),
     Lock.key lock ∈ held_locks w →
     TimedRetryPolicy n (Lock_acquire lock) w
     = (Raise LockTimeout,
        with_locks (λ l, l) (replicate n (Contended (Lock.key lock))) w))
  ∧ (∀ (A : Type) (n : nat) (operation : M A) (w w' : World) (e : exn),
       operation w = (Raise e, w') → e ≠ LockUnavailable →
       TimedRetryPolicy (S n) operation w = (Raise e, w'))
  ∧ (∀ (A : Type) (n : nat) (operation : M A) (w w' : World) (a : A),
       operation w = (Return a, w') →
       TimedRetryPolicy (S n) operation w = (Return a, w'))
  ∧ (∀ (organization : Organization.t) (result : Result.t) (w : World),
       (∀ slug, slug ∈ Result.projects result →
                resolves w (Organization.id organization) slug) →
       stored_release w (Organization.id organization) (Result.version result) = None →
       get_lock_key (Organization.id organization) (Result.version result)
         ∈ held_locks w →
       post (inr result) organization w
       = (Raise LockTimeout,
          with_locks (λ l, l)
            (replicate 10 (Contended (get_lock_key (Organization.id organization)
                                        (Result.version result)))) w)).
Proof.
  split_and!.
  - intros n lock w. apply retry_contended.
  - intros A n operation w w' e Hop He.
    rewrite retry_first_attempt; [done|]. intros w''. rewrite Hop. congruence.
  - intros A n operation w w' a Hop.
    rewrite retry_first_attempt; [done|]. intros w''. by rewrite Hop.
  - intros organization result w Hres Hs Hheld.
    rewrite post_valid by (intros (slug & Hin & Hun); by apply Hun, Hres).
    rewrite bind_unfold. by rewrite get_or_create_contended.
Qed.

Lemma lock_acquisition_is_bounded_witness :
  post (inr (request "1.0" None ["web"])) acme
    (with_locks (λ l, (7, "1.0") :: l) [] empty_world)
  = (Raise LockTimeout,
     with_locks (λ l, l) (replicate 10 (Contended (7, "1.0")))
       (with_locks (λ l, (7, "1.0") :: l) [] empty_world)).
Proof.
  destruct lock_acquisition_is_bounded as (_ & _ & _ & H).
  apply (H acme (request "1.0" None ["web"])
           (with_locks (λ l, (7, "1.0") :: l) [] empty_world)).
  - intros slug ->%list_elem_of_singleton. exists web. split_and!; try done. left.
  - reflexivity.
  - left.
Defined.

(** ** The machine, step by step *)

Lemma caller_step_spec (c : Caller.t) (w : World) :
  caller_steps c w (caller_step c w).1 (caller_step c w).2.
Proof.
  unfold caller_step.
  destruct (Caller.at_ c) as [|[|n]| | |o|o] eqn:Hat.
  - unfold Release_objects_filter_first.
    destruct (head _) as [release|] eqn:Hh; simpl.
    + destruct (filter _ _) as [|r l] eqn:Hf; [done|]. simpl in Hh. simplify_eq.
      by eapply step_lookup_found.
    + apply head_None in Hh. by apply step_lookup_missing.
  - by apply step_give_up.
  - unfold Lock_acquire, locks_get. simpl.
    fold (get_lock_key (Organization.id (Caller.organization c))
            (Result.version (Caller.result c))).
    fold (Caller.key c). case_decide.
    + by eapply step_contended.
    + by eapply step_acquired.
  - unfold Release_objects_get. fold (matching w c).
    destruct (matching w c) as [|r1 [|r2 l]] eqn:Hf; simpl.
    + by apply step_get_missing.
    + by apply step_get_found.
    + by eapply step_get_several.
  - unfold Release_objects_create. fold (matching w c).
    destruct (matching w c) as [|r1 l] eqn:Hf; simpl.
    + by apply step_create.
    + by eapply step_create_conflict.
  - simpl. by apply step_release.
  - by eapply step_done.
Qed.

(** Case analysis on a step, with the names used throughout. *)
Ltac step_cases H :=
  destruct H as [release l Hat Hm|Hat Hm|Hat|n Hat Hh|n Hat Hh|release Hat Hm
                |Hat Hm|r1 r2 l Hat Hm|Hat Hm|r l Hat Hm|o Hat|o Hat].

(** ** Histories of the machine *)

Lemma attempts_snoc (k : nat) : attempts k ++ [OpAcquire false] = attempts (S k).
Proof.
  unfold attempts. simpl. f_equal.
  change [OpAcquire false] with (replicate 1 (OpAcquire false)).
  rewrite <- replicate_add. by replace (k + 1) with (S k) by lia.
Qed.

Lemma in_lock_goto c o ops l x : in_lock c o ops → in_lock (Caller.goto c l x) o ops.
Proof.
  intros [r|id| |];
    [apply lock_found|exact (lock_created (Caller.goto c l x) id)
    |apply lock_several|apply lock_conflict].
Qed.

Lemma on_track_step (c c' : Caller.t) (w w' : World) :
  caller_steps c w c' w' → on_track c → on_track c'.
Proof.
  intros Hstep. unfold on_track.
  step_cases Hstep;
    rewrite Hat; simpl; try done.
  - intros ->. left. by exists release.
  - intros ->. done.
  - intros [_ ->]. right. by left.
  - intros [Hn ->]. split; [lia|].
    rewrite attempts_snoc. f_equal. lia.
  - intros [Hn ->]. exists (10 - S n). split; [lia|done].
  - intros (k & Hk & ->). exists k, [OpGet (Return release)].
    split_and!; [done|apply lock_found|by simpl; rewrite <- ?app_assoc].
  - intros (k & Hk & ->). exists k. by simpl; rewrite <- ?app_assoc.
  - intros (k & Hk & ->). exists k, [OpGet (Raise MultipleObjectsReturned)].
    split_and!; [done|apply lock_several|by simpl; rewrite <- ?app_assoc].
  - intros (k & Hk & ->). eexists k, _.
    split_and!;
      [done|exact (lock_created (Caller.goto c _ _) (fresh_release_id (release_table w)))|].
    by simpl; rewrite <- ?app_assoc.
  - intros (k & Hk & ->). eexists k, _.
    split_and!; [done|apply lock_conflict|]. by simpl; rewrite <- ?app_assoc.
  - intros (k & ops & Hk & Hops & ->). right. right. exists k, ops.
    split_and!; [done|by apply in_lock_goto|]. by simpl; rewrite <- ?app_assoc.
Qed.

(** ** Invariants of interleaved runs *)

Lemma act_preserves (I : system → Prop) :
  (∀ cs w i c c' w',
     I (cs, w) → cs !! i = Some c → caller_steps c w c' w' → I (<[i:=c']> cs, w')) →
  (∀ cs w k, I (cs, w) → I (cs, with_locks (filter (λ k', k' ≠ k)) [] w)) →
  ∀ s a, I s → I (act s a).
Proof.
  intros Hrun Hexpire [cs w] [i|k] HI; simpl; [|by apply Hexpire].
  destruct (cs !! i) as [c|] eqn:Hc; [|done].
  pose proof (caller_step_spec c w) as Hstep.
  destruct (caller_step c w) as [c' w']. by eapply Hrun.
Qed.

Lemma run_preserves (I : system → Prop) :
  (∀ s a, I s → I (act s a)) → ∀ schedule s, I s → I (run schedule s).
Proof.
  intros Hact schedule. unfold run.
  induction schedule as [|a schedule IH]; intros s HI; [done|].
  simpl. by apply IH, Hact.
Qed.

Lemma lookup_after_step (cs : list Caller.t) i c' j cj :
  <[i:=c']> cs !! j = Some cj → (j = i ∧ cj = c') ∨ (j ≠ i ∧ cs !! j = Some cj).
Proof.
  intros [(-> & -> & _)|[Hne H]]%list_lookup_insert_Some; [by left|right]. by split.
Qed.

Lemma all_on_track requests schedule (w0 : World) i c :
  (run schedule (callers requests, w0)).1 !! i = Some c → on_track c.
Proof.
  revert i c.
  set (I := λ s : system, ∀ i c, s.1 !! i = Some c → on_track c).
  apply (run_preserves I).
  - apply (act_preserves I); unfold I; simpl.
    + intros cs w i c c' w' HI Hc Hstep j cj [[-> ->]|[Hne Hj]]%lookup_after_step.
      * eapply on_track_step; [done|]. by eapply HI.
      * by eapply HI.
    + done.
  - unfold I. simpl. intros i c. unfold callers. rewrite list_lookup_fmap.
    destruct (requests !! i); [|done]. simpl. by intros [= <-].
Qed.

(** *** What a step can change *)

Lemma matching_key (w : World) (c c' : Caller.t) :
  Caller.key c = Caller.key c' → matching w c = matching w c'.
Proof. unfold Caller.key, get_lock_key, matching. by intros [= -> ->]. Qed.

Lemma is_release_key (c : Caller.t) o v id :
  is_release o v (release_of_request id (Caller.organization c) (Caller.result c))
  ↔ (o, v) = Caller.key c.
Proof.
  unfold is_release, Caller.key, get_lock_key. simpl. split.
  - by intros [<- <-].
  - by intros [= -> ->].
Qed.

Lemma step_key (c c' : Caller.t) (w w' : World) :
  caller_steps c w c' w' →
  Caller.organization c' = Caller.organization c ∧ Caller.result c' = Caller.result c
  ∧ Caller.key c' = Caller.key c.
Proof. by intros []. Qed.

(** A step leaves the release table alone, unless it is the insert of a
    release whose key is not yet stored. *)
Lemma step_table (c c' : Caller.t) (w w' : World) :
  caller_steps c w c' w' →
  release_table w' = release_table w
  ∨ (Caller.at_ c = Creating ∧ matching w c = []
     ∧ release_table w' = release_table w ++ [made_by c (release_table w)]
     ∧ outcome_of c' = Some (made_by c (release_table w), true)).
Proof. intros []; try by left. by right. Qed.

Lemma matching_grows (c c' x : Caller.t) (w w' : World) :
  caller_steps c w c' w' → ∃ new, matching w' x = matching w x ++ new.
Proof.
  intros [E|(_ & _ & E & _)]%step_table; unfold matching; rewrite E.
  - exists []. by rewrite app_nil_r.
  - eexists. by rewrite filter_app.
Qed.


Lemma matching_elem (c c' x : Caller.t) (w w' : World) r :
  caller_steps c w c' w' → r ∈ matching w x → r ∈ matching w' x.
Proof.
  intros Hstep Hr. destruct (matching_grows c c' x w w' Hstep) as [new ->].
  apply elem_of_app. by left.
Qed.

Lemma step_unique (c c' : Caller.t) (w w' : World) :
  caller_steps c w c' w' → unique_releases w → unique_releases w'.
Proof.
  intros [E|(_ & Hm & E & _)]%step_table Hu o v; rewrite E; [apply Hu|].
  rewrite filter_app, length_app.
  destruct (decide ((o, v) = Caller.key c)) as [Hk|Hk].
  - unfold Caller.key, get_lock_key in Hk. injection Hk as -> ->.
    fold (matching w c). rewrite Hm. simpl.
    rewrite filter_cons. case_decide; simpl; lia.
  - rewrite filter_cons_False; [|unfold made_by; by intros ?%is_release_key].
    rewrite filter_nil. simpl. specialize (Hu o v). lia.
Qed.

(** The release a step hands to its caller is stored under the caller's
    key; it is flagged as created only if nothing was stored before. *)
Lemma step_outcome (c c' : Caller.t) (w w' : World) :
  caller_steps c w c' w' →
  outcome_of c' = outcome_of c
  ∨ (outcome_of c = None
     ∧ ∃ r b, outcome_of c' = Some (r, b) ∧ r ∈ matching w' c
              ∧ (b = true → matching w c = [])).
Proof.
  unfold outcome_of. intros Hstep.
  step_cases Hstep; rewrite Hat; simpl; try (by left).
  - right. split; [done|]. exists release, false. rewrite Hm.
    split_and!; [done|left|done].
  - right. split; [done|]. exists release, false. rewrite Hm.
    split_and!; [done|left|done].
  - right. split; [done|]. eexists _, true. split_and!; [done| |done].
    unfold matching. simpl. rewrite filter_app. apply elem_of_app. right.
    rewrite filter_cons_True; [left|]. unfold made_by. by apply is_release_key.
Qed.

Lemma step_locks (c c' : Caller.t) (w w' : World) k :
  caller_steps c w c' w' → k ∈ held_locks w' →
  k ∈ held_locks w ∨ (k = Caller.key c ∧ Caller.at_ c' = Getting).
Proof.
  intros []; simpl; try (by left).
  - intros [->|Hk]%elem_of_cons; [by right|by left].
  - intros [_ Hk]%list_elem_of_filter. by left.
Qed.

(** *** Safety: one release per key, one creator per key *)

Lemma callers_start requests i c :
  callers requests !! i = Some c → Caller.at_ c = Lookup ∧ Caller.history c = [].
Proof.
  unfold callers. rewrite list_lookup_fmap.
  destruct (requests !! i); [|done]. simpl. by intros [= <-].
Qed.

Lemma coherent_start requests (w0 : World) :
  unique_releases w0 → coherent (callers requests, w0).
Proof.
  intros Hu. split; simpl; [done| |].
  - intros i c r b [Hat _]%callers_start. unfold outcome_of. by rewrite Hat.
  - intros i j ci cj ri rj [Hat _]%callers_start. unfold outcome_of. by rewrite Hat.
Qed.

Lemma coherent_step cs (w : World) i c c' w' :
  coherent (cs, w) → cs !! i = Some c → caller_steps c w c' w' →
  coherent (<[i:=c']> cs, w').
Proof.
  intros [Hu Hret Hcr] Hc Hstep. simpl in *.
  pose proof (step_key _ _ _ _ Hstep) as (_ & _ & Hkey).
  assert (∀ r b, outcome_of c' = Some (r, b) → r ∈ matching w' c') as Hret'.
  { intros r b Ho. rewrite (matching_key w' c' c) by done.
    destruct (step_outcome _ _ _ _ Hstep) as [E|(_ & r' & b' & E & Hin & _)].
    - eapply matching_elem; [done|]. eapply Hret; [done|]. by rewrite <- E.
    - congruence. }
  assert (∀ j cj r rj, j ≠ i → cs !! j = Some cj → Caller.key c' = Caller.key cj →
             outcome_of c' = Some (r, true) → outcome_of cj = Some (rj, true) → False)
    as Hfresh.
  { intros j cj r rj Hne Hj Hk Ho Hoj.
    destruct (step_outcome _ _ _ _ Hstep) as [E|(_ & r' & b' & E & _ & Hnone)].
    - apply Hne. symmetry. eapply (Hcr i j c cj r rj); try done; congruence.
    - assert (b' = true) as -> by congruence.
      pose proof (Hret j cj rj true Hj Hoj) as Hin.
      rewrite (matching_key w cj c), Hnone in Hin by congruence.
      by apply elem_of_nil in Hin. }
  split; simpl.
  - by eapply step_unique.
  - intros j cj r b [[-> ->]|[Hne Hj]]%lookup_after_step Ho.
    + by eapply Hret'.
    + eapply matching_elem; [done|]. by eapply Hret.
  - intros j1 j2 c1 c2 r1 r2 [[-> ->]|[Hne1 Hj1]]%lookup_after_step
      [[-> ->]|[Hne2 Hj2]]%lookup_after_step Hk Ho1 Ho2; [done| | |].
    + by destruct (Hfresh j2 c2 r1 r2).
    + by destruct (Hfresh j1 c1 r2 r1).
    + by eapply (Hcr j1 j2).
Qed.



(** *** Progress: a caller refused the lock leaves a release behind *)








(** *** Mutual exclusion, as long as no lock runs out *)

Lemma run_preserves_runs (I : system → Prop) :
  (∀ s i, I s → I (act s (Run i))) →
  ∀ schedule s, Forall is_run schedule → I s → I (run schedule s).
Proof.
  intros Hact schedule. unfold run.
  induction schedule as [|a schedule IH]; intros s Hruns HI; [done|].
  apply Forall_cons in Hruns as [Ha Hruns]. simpl. apply IH; [done|].
  destruct a as [i|k]; [by apply Hact|done].
Qed.

Lemma step_into_section (c c' : Caller.t) (w w' : World) :
  caller_steps c w c' w' → in_section c' →
  in_section c ∨ Caller.key c ∉ held_locks w.
Proof.
  unfold in_section. intros Hstep.
  step_cases Hstep; rewrite Hat; simpl; try done; auto.
Qed.

Lemma step_keeps_lock (c c' : Caller.t) (w w' : World) k :
  caller_steps c w c' w' → k ∈ held_locks w →
  k ∈ held_locks w' ∨ (k = Caller.key c ∧ in_section c).
Proof.
  intros Hstep Hk. step_cases Hstep; simpl; try (by left).
  - left. by right.
  - destruct (decide (k = Caller.key c)) as [->|Hne].
    + right. split; [done|]. unfold in_section. by rewrite Hat.
    + left. by apply list_elem_of_filter.
Qed.

Lemma step_keeps_own_lock (c c' : Caller.t) (w w' : World) :
  caller_steps c w c' w' → in_section c' →
  (in_section c → Caller.key c ∈ held_locks w) → Caller.key c ∈ held_locks w'.
Proof.
  unfold in_section. intros Hstep.
  step_cases Hstep; rewrite Hat; simpl; try done; try (intros _ H; by apply H).
  intros _ _. left.
Qed.

Lemma step_failure (c c' : Caller.t) (w w' : World) e :
  caller_steps c w c' w' → unique_releases w →
  (Caller.at_ c = Creating → matching w c = []) →
  failure_of c' = Some e → failure_of c = Some e ∨ e = LockTimeout.
Proof.
  unfold failure_of. intros Hstep Hu Hfresh.
  step_cases Hstep;
    rewrite Hat; simpl; try done; auto.
  - intros [= <-]. by right.
  - specialize (Hu (Organization.id (Caller.organization c))
                  (Result.version (Caller.result c))).
    fold (matching w c) in Hu. rewrite Hm in Hu. simpl in Hu. lia.
  - rewrite Hfresh in Hm; done.
Qed.

Lemma exclusive_start requests (w0 : World) : exclusive (callers requests, w0).
Proof.
  split; simpl.
  - intros i c [Hat _]%callers_start. unfold in_section. by rewrite Hat.
  - intros i j ci cj [Hat _]%callers_start. unfold in_section. by rewrite Hat.
  - intros i c [Hat _]%callers_start. by rewrite Hat.
  - intros i c e [Hat _]%callers_start. unfold failure_of. by rewrite Hat.
Qed.

Lemma exclusive_step cs (w : World) i c c' w' :
  unique_releases w → exclusive (cs, w) → cs !! i = Some c → caller_steps c w c' w' →
  exclusive (<[i:=c']> cs, w').
Proof.
  intros Hu [Hheld Halone Hfresh Hclean] Hc Hstep. simpl in *.
  pose proof (step_key _ _ _ _ Hstep) as (_ & _ & Hkey).
  assert (∀ j cj, j ≠ i → cs !! j = Some cj → in_section cj → in_section c' →
                  Caller.key cj = Caller.key c → False) as Hother.
  { intros j cj Hne Hj Hsj Hs' Hk.
    destruct (step_into_section _ _ _ _ Hstep Hs') as [Hs|Hfree].
    - apply Hne. by eapply (Halone j i cj c).
    - apply Hfree. rewrite <- Hk. by eapply Hheld. }
  split; simpl.
  - intros j cj [[-> ->]|[Hne Hj]]%lookup_after_step Hs.
    + rewrite Hkey. eapply step_keeps_own_lock; [done..|]. by eapply Hheld.
    + destruct (step_keeps_lock _ _ _ _ (Caller.key cj) Hstep) as [H|[Hk Hsc]];
        [by eapply Hheld|done|].
      destruct Hne. by eapply (Halone j i cj c).
  - intros j1 j2 c1 c2 [[-> ->]|[Hne1 Hj1]]%lookup_after_step
      [[-> ->]|[Hne2 Hj2]]%lookup_after_step Hs1 Hs2 Hk; [done| | |].
    + destruct (Hother j2 c2); try done. congruence.
    + destruct (Hother j1 c1); try done. congruence.
    + by eapply (Halone j1 j2).
  - intros j cj [[-> ->]|[Hne Hj]]%lookup_after_step Hat.
    + destruct Hstep; simpl in Hat; try done; congruence.
    + destruct (step_table _ _ _ _ Hstep) as [E|(Hatc & Hm & E & Ho)].
      * unfold matching. rewrite E. by eapply Hfresh.
      * unfold matching. rewrite E, filter_app. fold (matching w cj).
        rewrite (Hfresh j cj) by done. simpl.
        rewrite filter_cons_False; [done|]. unfold made_by. intros Hk%is_release_key.
        apply Hne. eapply (Halone j i cj c); try done.
        -- unfold in_section. by rewrite Hat.
        -- unfold in_section. by rewrite Hatc.
  - intros j cj e [[-> ->]|[Hne Hj]]%lookup_after_step Hf.
    + destruct (step_failure _ _ _ _ e Hstep Hu) as [H|H]; try done.
      * by eapply Hfresh.
      * by eapply Hclean.
    + by eapply Hclean.
Qed.

Lemma exclusive_run requests schedule (w0 : World) :
  unique_releases w0 → Forall is_run schedule →
  exclusive (run schedule (callers requests, w0)).
Proof.
  intros Hu Hruns.
  set (I := λ s : system, coherent s ∧ exclusive s).
  assert (I (run schedule (callers requests, w0))) as [_ H]; [|done].
  apply (run_preserves_runs I); [|done|].
  - intros [cs w] i [Hcoh Hexc]. unfold I. simpl.
    destruct (cs !! i) as [c|] eqn:Hc; [|done].
    pose proof (caller_step_spec c w) as Hstep.
    destruct (caller_step c w) as [c' w']. split.
    + by eapply coherent_step.
    + eapply exclusive_step; [|done..]. by destruct Hcoh.
  - split; [by apply coherent_start|apply exclusive_start].
Qed.

(** ** The machine run alone is the handler's section *)

Lemma run_single (c : Caller.t) (w : World) schedule :
  run (Run 0 :: schedule) ([c], w)
  = run schedule ([(caller_step c w).1], (caller_step c w).2).
Proof. unfold run. simpl. by destruct (caller_step c w). Qed.

Lemma run_single_done (n : nat) (c : Caller.t) (w : World) o :
  Caller.at_ c = Done o → run (replicate n (Run 0)) ([c], w) = ([c], w).
Proof.
  intros Hat. induction n as [|n IH]; [done|].
  change (replicate (S n) (Run 0)) with (Run 0 :: replicate n (Run 0)).
  rewrite run_single. unfold caller_step. by rewrite Hat.
Qed.

Lemma run_app (s1 s2 : list action) (s : system) :
  run (s1 ++ s2) s = run s2 (run s1 s).
Proof. unfold run. apply foldl_app. Qed.

Lemma run_single_contended (n : nat) (c : Caller.t) (w : World) :
  Caller.at_ c = Acquiring n → Caller.key c ∈ held_locks w →
  ∃ c', run (replicate n (Run 0)) ([c], w)
        = ([c'], with_locks (λ l, l) (replicate n (Contended (Caller.key c))) w)
        ∧ Caller.at_ c' = Acquiring 0.
Proof.
  revert c w. induction n as [|n IH]; intros c w Hat Hheld.
  - exists c. by rewrite with_locks_nil.
  - change (replicate (S n) (Run 0)) with (Run 0 :: replicate n (Run 0)).
    rewrite run_single. unfold caller_step. rewrite Hat.
    unfold Lock_acquire, locks_get. simpl.
    change (get_lock_key _ _) with (Caller.key c). rewrite decide_True by done.
    simpl. edestruct IH as (c' & -> & Hat'); [| |exists c'; split; [|done]].
    + done.
    + done.
    + f_equal. by rewrite with_locks_with_locks.
Qed.

Lemma step_alone (c c1 : Caller.t) (w w1 : World) schedule :
  caller_step c w = (c1, w1) →
  run (Run 0 :: schedule) ([c], w) = run schedule ([c1], w1).
Proof. intros E. by rewrite run_single, E. Qed.

Lemma caller_alone (organization : Organization.t) (result : Result.t) (w : World) :
  ∃ c, run (replicate 12 (Run 0)) ([Caller.start organization result], w)
       = ([c], (get_or_create_release organization result w).2)
       ∧ Caller.at_ c = Done (get_or_create_release organization result w).1.
Proof.
  set (k := get_lock_key (Organization.id organization) (Result.version result)).
  destruct (stored_release w (Organization.id organization) (Result.version result))
    as [release|] eqn:Hs.
  - rewrite (get_or_create_found _ _ _ _ Hs).
    change (replicate 12 (Run 0)) with (Run 0 :: replicate 11 (Run 0)).
    erewrite step_alone.
    2:{ unfold caller_step, Release_objects_filter_first.
        cbn [Caller.at_ Caller.start Caller.organization Caller.result].
        fold (stored_release w (Organization.id organization) (Result.version result)).
        rewrite Hs. reflexivity. }
    eexists. split; [by eapply run_single_done|done].
  - destruct (decide (k ∈ held_locks w)) as [Hh|Hh].
    + rewrite get_or_create_contended by done.
      change (replicate 12 (Run 0))
        with (Run 0 :: (replicate 10 (Run 0) ++ [Run 0])).
      erewrite step_alone.
      2:{ unfold caller_step, Release_objects_filter_first.
        cbn [Caller.at_ Caller.start Caller.organization Caller.result].
          fold (stored_release w (Organization.id organization) (Result.version result)).
          rewrite Hs. reflexivity. }
      rewrite run_app.
      edestruct (run_single_contended 10) as (c' & -> & Hat'); [reflexivity|exact Hh|].
      erewrite step_alone; [|unfold caller_step; by rewrite Hat'].
      eexists. split; [reflexivity|done].
    + rewrite get_or_create_created by done. apply head_None in Hs.
      change (replicate 12 (Run 0))
        with (Run 0 :: Run 0 :: Run 0 :: Run 0 :: Run 0 :: replicate 7 (Run 0)).
      erewrite step_alone.
      2:{ unfold caller_step, Release_objects_filter_first.
        cbn [Caller.at_ Caller.start Caller.organization Caller.result].
          rewrite Hs. reflexivity. }
      erewrite step_alone.
      2:{ unfold caller_step, Lock_acquire, locks_get.
          cbn [Caller.at_ Caller.goto Caller.organization Caller.result Caller.start
               Lock.key].
          fold k. rewrite decide_False by done. reflexivity. }
      erewrite step_alone.
      2:{ unfold caller_step, Release_objects_get.
          cbn [Caller.at_ Caller.goto Caller.organization Caller.result Caller.start].
          change (release_table (with_locks _ _ w)) with (release_table w).
          rewrite Hs. reflexivity. }
      erewrite step_alone.
      2:{ unfold caller_step, Release_objects_create.
          cbn [Caller.at_ Caller.goto Caller.organization Caller.result Caller.start].
          change (release_table (with_locks _ _ w)) with (release_table w).
          rewrite Hs. reflexivity. }
      erewrite step_alone.
      2:{ unfold caller_step.
          cbn [Caller.at_ Caller.goto Caller.organization Caller.result Caller.start].
          reflexivity. }
      eexists. split; [by eapply run_single_done|done].
Qed.

(** ** Claims about the get-or-create section *)

(** C1. The get-or-create section follows the four steps of the algorithm.
    Run on its own: a stored release is returned with [created = false]
    and the world, the lock journal included, is untouched; otherwise the
    lock for [(organization, version)] is tried under the retry policy, and
    once it is taken the release built from the request is inserted,
    returned with [created = true], and the lock is released.
    The step machine, run alone to its end, computes the same outcome and
    world.  Interleaved with other callers: a caller that returns has either found
    the release in its first, lock-free lookup, or has taken the lock after
    fewer than 10 refusals and then, before releasing it, either found the
    release in its second lookup ([created = false]) or found nothing and
    inserted the release built from its own request ([created = true]).
    As long as no lock runs out, a caller between taking and releasing the
    lock does hold it, and is the only one for its key to do so. *)
Theorem get_or_create_follows_the_algorithm :
  (∀ (organization : Organization.t) (result : Result.t) (w : World),
     let k := get_lock_key (Organization.id organization) (Result.version result) in
     match stored_release w (Organization.id organization) (Result.version result) with
     | Some release =>
         get_or_create_release organization result w = (Return (release, false), w)
     | None =>
         get_or_create_release organization result w
         = if decide (k ∈ held_locks w)
           then (Raise LockTimeout, with_locks (λ l, l) (replicate 10 (Contended k)) w)
           else
             let release :=
               release_of_request (fresh_release_id (release_table w))
                 organization result in
             (Return (release, true),
              with_locks (filter (λ k', k' ≠ k)) [Released k]
                (with_release_table (λ t, t ++ [release])
                   (with_locks (λ l, k :: l) [Acquired k] w)))
     end)
  ∧ (∀ (organization : Organization.t) (result : Result.t) (w : World),
       ∃ c, run (replicate 12 (Run 0)) ([Caller.start organization result], w)
            = ([c], (get_or_create_release organization result w).2)
            ∧ Caller.at_ c = Done (get_or_create_release organization result w).1)
  ∧ (∀ requests schedule (w0 : World) i c release created,
       (run schedule (callers requests, w0)).1 !! i = Some c →
       Caller.at_ c = Done (Return (release, created)) →
       (created = false ∧ Caller.history c = [OpLookup (Some release)])
       ∨ (∃ k, k < 10 ∧ created = false
               ∧ Caller.history c
                 = attempts k ++ [OpAcquire true; OpGet (Return release); OpRelease])
       ∨ (∃ k id, k < 10 ∧ created = true
                  ∧ release = release_of_request id (Caller.organization c)
                                (Caller.result c)
                  ∧ Caller.history c
                    = attempts k ++ [OpAcquire true; OpGet (Raise DoesNotExist);
                                     OpCreate (Return release); OpRelease]))
  ∧ (∀ requests schedule (w0 : World) i c,
       unique_releases w0 → Forall is_run schedule →
       (run schedule (callers requests, w0)).1 !! i = Some c →
       in_section c →
       Caller.key c ∈ held_locks (run schedule (callers requests, w0)).2
       ∧ ∀ j cj, (run schedule (callers requests, w0)).1 !! j = Some cj →
                 in_section cj → Caller.key cj = Caller.key c → j = i).
Proof.
  split_and!.
  - intros organization result w k.
    destruct (stored_release w _ _) as [release|] eqn:Hs.
    + by apply get_or_create_found.
    + case_decide.
      * by apply get_or_create_contended.
      * by apply get_or_create_created.
  - apply caller_alone.
  - intros requests schedule w0 i c release created Hc Hat.
    pose proof (all_on_track _ _ _ _ _ Hc) as Htrack.
    unfold on_track in Htrack. rewrite Hat in Htrack.
    destruct Htrack as [(r & [= <- <-] & Hh)|[[[=] _]|(k & ops & Hk & Hops & Hh)]].
    + by left.
    + right. inversion Hops as [r|id| |]; subst.
      * left. by exists k.
      * right. by exists k, id.
  - intros requests schedule w0 i c Hu Hruns Hc Hs.
    destruct (exclusive_run requests schedule w0 Hu Hruns) as [Hheld Halone _ _].
    split; [by eapply Hheld|]. intros j cj Hj Hsj Hk. by eapply Halone.
Qed.

Lemma get_or_create_follows_the_algorithm_witness :
  ∃ c k,
    (run racing_schedule (callers racing_requests, empty_world)).1 !! 1 = Some c
    ∧ k < 10
    ∧ Caller.history c
      = attempts k ++ [OpAcquire true;
                       OpGet (Return (Release.mk 1 7 "1.0" None None None None None));
                       OpRelease].
Proof.
  destruct get_or_create_follows_the_algorithm as (_ & _ & H & _).
  eexists. 
  edestruct (H racing_requests racing_schedule empty_world 1)
    as [[_ Hh]|[(k & Hk & _ & Hh)|(k & id & _ & Hc & _)]].
  - by vm_compute.
  - by vm_compute.
  - by vm_compute in Hh.
  - exists k. split_and!; [by vm_compute|done|exact Hh].
  - done.
Defined.

(** The second lookup matters: in this interleaving both callers miss in
    their first lookup, and the one that takes the lock second finds the
    release the first has inserted. *)
Example second_lookup_finds_the_release :
  Caller.at_ <$> (run racing_schedule (callers racing_requests, empty_world)).1
  = [Done (Return (Release.mk 1 7 "1.0" None None None None None, true));
     Done (Return (Release.mk 1 7 "1.0" None None None None None, false))].
Proof. by vm_compute. Qed.

(** When the lock runs out while its holder is still in the section, a
    second insert is attempted and rejected: that caller fails with
    [IntegrityError], and still only one release is stored. *)
Example expired_lock_ends_in_an_error :
  let s := run [Run 0; Run 1; Run 0; Run 0; Expire (7, "1.0"); Run 1; Run 1; Run 1;
                Run 0; Run 0; Run 1; Run 1] (callers racing_requests, empty_world) in
  Caller.at_ <$> s.1
  = [Done (Raise IntegrityError);
     Done (Return (Release.mk 1 7 "1.0" (Some "abc") None None None (Some 9%Z), true))]
  ∧ length (release_table s.2) = 1.
Proof. by vm_compute. Qed.



(** * Further properties *)

(** ** The handler as a whole *)

Lemma get_or_create_locks organization result (w w1 : World) o :
  get_or_create_release organization result w = (o, w1) →
  held_locks w1 = held_locks w.
Proof.
  destruct (stored_release w (Organization.id organization) (Result.version result))
    as [r|] eqn:Hs.
  - rewrite (get_or_create_found _ _ _ _ Hs). by intros [= <- <-].
  - destruct (decide (get_lock_key (Organization.id organization)
                        (Result.version result) ∈ held_locks w)) as [Hh|Hh].
    + rewrite get_or_create_contended by done. by intros [= <- <-].
    + rewrite get_or_create_created by done. intros [= <- <-]. simpl.
      rewrite filter_cons_False by (intros H; by apply H).
      apply filter_all. intros k Hk ->. by apply Hh.
Qed.

Lemma post_locks request_data organization (w w' : World) o :
  post request_data organization w = (o, w') → held_locks w' = held_locks w.
Proof.
  destruct request_data as [errors|result].
  { simpl. unfold mret, M_ret. by intros [= <- <-]. }
  intros Hpost. post_cases Hpost.
  - done.
  - by eapply get_or_create_locks.
  - apply get_or_create_locks in E1. apply link_all_frame in E2 as (added & ->).
    by rewrite <- E1.
  - apply get_or_create_locks in E1. apply link_all_frame in E2 as (added & ->).
    apply notify_if_live_frame in E3 as (activities & evs & ->). by rewrite <- E1.
  - apply get_or_create_locks in E1. apply link_all_frame in E2 as (added & ->).
    apply notify_if_live_frame in E3 as (activities & evs & ->).
    destruct (attach_commits_returns result release
                (with_dispatch activities evs
                   (with_releaseproject_table (λ t, t ++ added) w1))) as [commits E4'].
    rewrite E4' in E4. injection E4 as <- <-. by rewrite <- E1.
Qed.

(** X1. When [post] answers, the status is 400, 201 or 208.  An answer 400
    carries error messages and leaves the world exactly as it was.  An
    answer 201 or 208 carries a release of the organization with the
    requested version, and that release is the one stored afterwards. *)
Theorem post_answers_400_201_or_208
    (request_data : list (string * list string) + Result.t)
    (organization : Organization.t) (w w' : World) (response : Response) :
  post request_data organization w = (Return response, w') →
  (status response = 400 ∧ w' = w ∧ ∃ fields, data response = Errors fields)
  ∨ (∃ result release,
       request_data = inr result ∧ data response = Serialized release
       ∧ (status response = 201 ∨ status response = 208)
       ∧ is_release (Organization.id organization) (Result.version result) release
       ∧ stored_release w' (Organization.id organization) (Result.version result)
         = Some release).
Proof.
  destruct request_data as [errors|result].
  { simpl. unfold mret, M_ret. intros [= <- <-]. left. split_and!; [done..|].
    by eexists. }
  intros Hpost. pose proof (post_extends _ _ _ _ _ Hpost) as Hext.
  apply post_runs in Hpost.
  inversion Hpost as [Hu Ho Hw| | |
                     |release created w1 new_projects w2 u w3 u' w4 Hr E1 E2 E3 E4 Ho];
    subst.
  - left. split_and!; [done..|]. by eexists.
  - right. exists result, release.
    apply get_or_create_shape in E1 as (new & f & events & -> & Hst & _).
    apply link_all_frame in E2 as (added & ->).
    apply notify_if_live_frame in E3 as (activities & evs & ->).
    destruct (attach_commits_returns result release
                (with_dispatch activities evs
                   (with_releaseproject_table (λ t, t ++ added)
                      (with_locks f events
                         (with_release_table (λ t, t ++ new) w))))) as [commits E4'].
    rewrite E4' in E4. injection E4 as _ <-.
    split_and!; [done|done|by destruct created; [left|right]| |exact Hst].
    by apply stored_release_elem in Hst as [_ Hst].
Qed.

Lemma post_answers_witness :
  stored_release (post (inr (request "1.0" None ["web"])) acme empty_world).2 7 "1.0"
  = Some (Release.mk 1 7 "1.0" None None None None None).
Proof.
  destruct (post_answers_400_201_or_208 (inr (request "1.0" None ["web"])) acme
              empty_world (post (inr (request "1.0" None ["web"])) acme empty_world).2
              (mkResponse (Serialized (Release.mk 1 7 "1.0" None None None None None))
                 201))
    as [(Hst & _)|(result & release & [= <-] & [= <-] & _ & _ & Hs)].
  - by vm_compute.
  - simpl in Hst. lia.
  - exact Hs.
Defined.

(** X2. [post] never removes or rewrites anything, whatever the outcome:
    each table and each journal afterwards starts with the one before.  The
    project table and the set of held locks are exactly as before, so the
    lock taken for the insert is never left held. *)
Theorem post_only_appends
    (request_data : list (string * list string) + Result.t)
    (organization : Organization.t) (w w' : World) (o : outcome Response) :
  post request_data organization w = (o, w') →
  project_table w' = project_table w
  ∧ held_locks w' = held_locks w
  ∧ release_table w `prefix_of` release_table w'
  ∧ releaseproject_table w `prefix_of` releaseproject_table w'
  ∧ activity_table w `prefix_of` activity_table w'
  ∧ commit_table w `prefix_of` commit_table w'
  ∧ lock_journal w `prefix_of` lock_journal w'
  ∧ dispatch_journal w `prefix_of` dispatch_journal w'.
Proof.
  intros Hpost. pose proof (post_locks _ _ _ _ _ Hpost) as Hlocks.
  apply post_extends in Hpost
    as (new & added & activities & commits & f & le & e & ->).
  simpl in *. split_and!; try done; by eexists.
Qed.

Lemma post_only_appends_witness :
  held_locks (post (inr (request "2.0" (Some 100%Z) ["web"; "api"])) acme deaf_world).2
  = held_locks deaf_world.
Proof.
  by destruct (post_only_appends (inr (request "2.0" (Some 100%Z) ["web"; "api"])) acme
                 deaf_world _ _ (surjective_pairing _)) as (_ & H & _).
Defined.

Lemma link_all_added release ps acc (w w' : World) o :
  link_all release ps acc w = (o, w') →
  ∃ added, w' = with_releaseproject_table (λ t, t ++ added) w
           ∧ ∀ rp, rp ∈ added → ∃ p, p ∈ ps ∧ rp = link_of release p.
Proof.
  revert acc w. induction ps as [|p ps IH]; intros acc w.
  - simpl. unfold mret, M_ret. intros [= <- <-].
    exists []. split; [by rewrite with_releaseproject_table_nil|].
    by intros rp ?%elem_of_nil.
  - rewrite link_all_cons. destruct (link_fault w p) as [e|].
    { intros [= <- <-].
      exists []. split; [by rewrite with_releaseproject_table_nil|].
      by intros rp ?%elem_of_nil. }
    case_decide.
    + intros (added & -> & Hadded)%IH.
      exists added. split; [done|]. intros rp (q & Hq & ->)%Hadded.
      exists q. split; [by right|done].
    + intros (added & -> & Hadded)%IH.
      exists (link_of release p :: added).
      split; [by rewrite with_releaseproject_table_app|].
      intros rp [->|(q & Hq & ->)%Hadded]%elem_of_cons.
      * exists p. split; [left|done].
      * exists q. split; [by right|done].
Qed.

(** X3. Whatever the outcome, the links [post] adds all join the release
    stored for the organization and requested version with a project of
    that same organization whose slug the request names: no project of
    another organization and no project that was not asked for is ever
    linked. *)
Theorem post_links_only_requested_projects
    (result : Result.t) (organization : Organization.t) (w w' : World)
    (o : outcome Response) :
  post (inr result) organization w = (o, w') →
  ∃ added,
    releaseproject_table w' = releaseproject_table w ++ added
    ∧ ∀ rp, rp ∈ added →
        ∃ p release,
          p ∈ project_table w
          ∧ Project.organization_id p = Organization.id organization
          ∧ Project.slug p ∈ Result.projects result
          ∧ stored_release w' (Organization.id organization) (Result.version result)
            = Some release
          ∧ rp = link_of release p.
Proof.
  intros Hpost.
  assert (∀ p, p ∈ requested_projects w organization result →
               p ∈ project_table w
               ∧ Project.organization_id p = Organization.id organization
               ∧ Project.slug p ∈ Result.projects result) as Hreq.
  { intros p Hp. unfold requested_projects in Hp.
    apply list_elem_of_filter in Hp. tauto. }
  post_cases Hpost.
  - exists []. split; [by rewrite app_nil_r|]. by intros rp ?%elem_of_nil.
  - apply get_or_create_shape in E1 as (new & f & events & -> & _).
    exists []. split; [by rewrite app_nil_r|]. by intros rp ?%elem_of_nil.
  - apply get_or_create_shape in E1 as (new & f & events & -> & Hst & _).
    apply link_all_added in E2 as (added & -> & Hadded).
    exists added. split; [done|]. intros rp (p & Hp & ->)%Hadded.
    exists p, release. apply Hreq in Hp as (? & ? & ?). by split_and!.
  - apply get_or_create_shape in E1 as (new & f & events & -> & Hst & _).
    apply link_all_added in E2 as (added & -> & Hadded).
    apply notify_if_live_frame in E3 as (activities & evs & ->).
    exists added. split; [done|]. intros rp (p & Hp & ->)%Hadded.
    exists p, release. apply Hreq in Hp as (? & ? & ?). by split_and!.
  - apply get_or_create_shape in E1 as (new & f & events & -> & Hst & _).
    apply link_all_added in E2 as (added & -> & Hadded).
    apply notify_if_live_frame in E3 as (activities & evs & ->).
    destruct (attach_commits_returns result release
                (with_dispatch activities evs
                   (with_releaseproject_table (λ t, t ++ added)
                      (with_locks f events
                         (with_release_table (λ t, t ++ new) w))))) as [commits E4'].
    rewrite E4' in E4. injection E4 as <- <-.
    exists added. split; [done|]. intros rp (p & Hp & ->)%Hadded.
    exists p, release. apply Hreq in Hp as (? & ? & ?). by split_and!.
Qed.

Lemma post_links_only_requested_witness :
  ∃ added,
    releaseproject_table
      (post (inr (request "2.0" (Some 100%Z) ["web"; "api"])) acme deaf_world).2
    = releaseproject_table deaf_world ++ added
    ∧ ∀ rp, rp ∈ added → ∃ p, p ∈ project_table deaf_world ∧ Project.organization_id p = 7
                              ∧ ReleaseProject.project_id rp = Project.id p.
Proof.
  destruct (post_links_only_requested_projects
              (request "2.0" (Some 100%Z) ["web"; "api"]) acme deaf_world _ _
              (surjective_pairing _)) as (added & Htable & Hadded).
  exists added. split; [exact Htable|].
  intros rp (p & release & Hp & Horg & _ & _ & ->)%Hadded. by exists p.
Defined.

Lemma attach_commits_exact result release (w : World) :
  attach_commits result release w
  = (Return (),
     mkWorld (project_table w) (release_table w) (releaseproject_table w)
       (activity_table w) (commit_table w ++ commits_recorded result release)
       (held_locks w) (lock_journal w) (dispatch_journal w)
       (link_faults w) (notify_faults w)).
Proof.
  unfold attach_commits, commits_recorded, set_commits, with_commits.
  destruct (Result.commits result) as [[|c cs]|]; unfold mret, M_ret;
    destruct w; simpl; by rewrite ?app_nil_r.
Qed.

(** X4. The commit table changes only when [post] answers with a release,
    and then by exactly one record for that release when the request
    carries a non-empty commit list, whether the release was created or
    already existed.  A missing list, an empty list, an answer 400 and a
    failed call record nothing. *)
Theorem commits_are_recorded_on_every_answer
    (result : Result.t) (organization : Organization.t) (w w' : World)
    (o : outcome Response) :
  post (inr result) organization w = (o, w') →
  commit_table w'
  = commit_table w
    ++ match o with
       | Return response =>
           match data response with
           | Serialized release => commits_recorded result release
           | Errors _ => []
           end
       | Raise _ => []
       end.
Proof.
  intros Hpost. post_cases Hpost; simpl.
  - by rewrite app_nil_r.
  - apply get_or_create_shape in E1 as (new & f & events & -> & _).
    simpl. by rewrite app_nil_r.
  - apply get_or_create_shape in E1 as (new & f & events & -> & _).
    apply link_all_frame in E2 as (added & ->). simpl. by rewrite app_nil_r.
  - apply get_or_create_shape in E1 as (new & f & events & -> & _).
    apply link_all_frame in E2 as (added & ->).
    apply notify_if_live_frame in E3 as (activities & evs & ->).
    simpl. by rewrite app_nil_r.
  - apply get_or_create_shape in E1 as (new & f & events & -> & _).
    apply link_all_frame in E2 as (added & ->).
    apply notify_if_live_frame in E3 as (activities & evs & ->).
    rewrite attach_commits_exact in E4. by injection E4 as <- <-.
Qed.

Lemma commits_are_recorded_witness :
  commit_table
    (post (inr (Result.mk "2.0" None None None None None ["web"] (Some ["abc"; "def"])))
       acme linked_world).2
  = [(1, ["abc"; "def"])].
Proof.
  rewrite (commits_are_recorded_on_every_answer
             (Result.mk "2.0" None None None None None ["web"] (Some ["abc"; "def"]))
             acme linked_world _ _ (surjective_pairing _)).
  by vm_compute.
Defined.

Lemma post_release_table request_data organization (w w' : World) o :
  post request_data organization w = (o, w') →
  release_table w' = release_table w
  ∨ ∃ result,
      request_data = inr result
      ∧ stored_release w (Organization.id organization) (Result.version result) = None
      ∧ release_table w'
        = release_table w
          ++ [release_of_request (fresh_release_id (release_table w)) organization result].
Proof.
  destruct request_data as [errors|result].
  { simpl. unfold mret, M_ret. intros [= <- <-]. by left. }
  intros Hpost.
  assert (∀ w1 rc, get_or_create_release organization result w = (Return rc, w1) →
            release_table w1 = release_table w
            ∨ (stored_release w (Organization.id organization) (Result.version result)
               = None
               ∧ release_table w1
                 = release_table w
                   ++ [release_of_request (fresh_release_id (release_table w))
                         organization result])) as Hshape.
  { intros w1 [release created] E.
    apply get_or_create_shape in E as (new & f & events & -> & _ & Hc).
    destruct created.
    - destruct Hc as (-> & Hs & ->). by right.
    - destruct Hc as (-> & _). left. simpl. by rewrite app_nil_r. }
  post_cases Hpost.
  - by left.
  - apply get_or_create_shape in E1 as (new & f & events & -> & _ & ->).
    left. simpl. by rewrite app_nil_r.
  - apply Hshape in E1. apply link_all_frame in E2 as (added & ->).
    destruct E1 as [E1|[Hs E1]]; [by left|right]. by exists result.
  - apply Hshape in E1. apply link_all_frame in E2 as (added & ->).
    apply notify_if_live_frame in E3 as (activities & evs & ->).
    destruct E1 as [E1|[Hs E1]]; [by left|right]. by exists result.
  - apply Hshape in E1. apply link_all_frame in E2 as (added & ->).
    apply notify_if_live_frame in E3 as (activities & evs & ->).
    rewrite attach_commits_exact in E4. injection E4 as <- <-.
    destruct E1 as [E1|[Hs E1]]; [by left|right]. by exists result.
Qed.

Lemma post_unique request_data organization (w w' : World) o :
  post request_data organization w = (o, w') →
  unique_releases w → unique_releases w'.
Proof.
  intros [E|(result & -> & Hs & E)]%post_release_table Hu o' v; rewrite E; [apply Hu|].
  rewrite filter_app, length_app.
  destruct (decide (is_release o' v
              (release_of_request (fresh_release_id (release_table w))
                 organization result))) as [Hr|Hr].
  - destruct Hr as [Ho Hv]. simpl in Ho, Hv. subst o' v.
    apply head_None in Hs. rewrite Hs. simpl.
    rewrite filter_cons. case_decide; simpl; lia.
  - rewrite filter_cons_False by done. rewrite filter_nil. simpl.
    specialize (Hu o' v). lia.
Qed.

(** X5. [post] keeps the releases unique by organization and version: if no
    two stored releases share both, none do after any sequence of requests,
    valid or not, successful or not. *)
Theorem post_keeps_releases_unique
    (requests : list (list (string * list string) + Result.t))
    (organization : Organization.t) (w : World) :
  unique_releases w → unique_releases (replay requests organization w).
Proof.
  revert w. induction requests as [|rq requests IH]; intros w Hu; [done|].
  simpl. apply IH. eapply post_unique; [apply surjective_pairing|done].
Qed.

Lemma post_keeps_releases_unique_witness :
  unique_releases
    (replay [inr (request "1.0" None ["web"]); inr (request "1.0" (Some 3%Z) ["api"]);
             inr (request "2.0" None ["ghost"]); inl [("version", ["missing"])]]
       acme empty_world).
Proof.
  apply post_keeps_releases_unique. intros o v. simpl. lia.
Defined.

(** ** Interleaved callers: locks and rows are accounted for *)

Lemma step_leaves_section (c c' : Caller.t) (w w' : World) :
  caller_steps c w c' w' → in_section c →
  in_section c' ∨ Caller.key c ∉ held_locks w'.
Proof.
  unfold in_section. intros Hstep.
  step_cases Hstep; rewrite Hat; simpl; try done; auto.
  intros _. right. intros [Hne _]%list_elem_of_filter. by apply Hne.
Qed.

Lemma locks_accounted_start requests (w0 : World) :
  locks_accounted w0 (callers requests, w0).
Proof. intros k Hk. by left. Qed.

Lemma locks_accounted_step (w0 : World) cs (w : World) i c c' w' :
  locks_accounted w0 (cs, w) → cs !! i = Some c → caller_steps c w c' w' →
  locks_accounted w0 (<[i:=c']> cs, w').
Proof.
  intros Hacc Hc Hstep k Hk. simpl in *.
  pose proof (step_key _ _ _ _ Hstep) as (_ & _ & Hkey).
  assert (i < length cs) as Hlen by (by eapply lookup_lt_Some).
  destruct (step_locks _ _ _ _ _ Hstep Hk) as [Hold|[-> Hat]].
  - destruct (Hacc k Hold) as [H0|(j & cj & Hj & Hs & Hkj)]; [by left|right].
    simpl in Hj. destruct (decide (j = i)) as [->|Hne].
    + assert (cj = c) as -> by congruence.
      destruct (step_leaves_section _ _ _ _ Hstep Hs) as [Hs'|Hout].
      * exists i, c'. split_and!; [|done|congruence].
        simpl. by apply list_lookup_insert_eq.
      * destruct Hout. by rewrite Hkj.
    + exists j, cj. split_and!; [|done..]. simpl. by rewrite list_lookup_insert_ne.
  - right. exists i, c'. split_and!; [|by unfold in_section; rewrite Hat|done].
    simpl. by apply list_lookup_insert_eq.
Qed.

Lemma locks_accounted_run requests schedule (w0 : World) :
  locks_accounted w0 (run schedule (callers requests, w0)).
Proof.
  apply (run_preserves (locks_accounted w0)); [|apply locks_accounted_start].
  apply (act_preserves (locks_accounted w0)).
  - intros cs w i c c' w'. apply locks_accounted_step.
  - intros cs w k Hacc k' Hk'. simpl in *.
    apply list_elem_of_filter in Hk' as [_ Hk']. by apply Hacc.
Qed.

(** X6. The section never leaks its lock.  However the callers are
    interleaved, and on every exit path (a release found, a release
    created, an insert rejected, too many releases found, a lock run out):
    a lock that is held was held before the callers started or belongs to a
    caller that is between taking and releasing it.  Once all callers have
    finished, no lock is held that was not held at the start. *)
Theorem section_never_leaks_its_lock
    (requests : list (Organization.t * Result.t)) (schedule : list action)
    (w0 : World) :
  let s := run schedule (callers requests, w0) in
  (∀ k, k ∈ held_locks s.2 →
        k ∈ held_locks w0
        ∨ ∃ i c, s.1 !! i = Some c ∧ in_section c ∧ Caller.key c = k)
  ∧ ((∀ c, c ∈ s.1 → ∃ o, Caller.at_ c = Done o) →
     ∀ k, k ∈ held_locks s.2 → k ∈ held_locks w0).
Proof.
  intros s. pose proof (locks_accounted_run requests schedule w0) as Hacc.
  fold s in Hacc. split; [exact Hacc|].
  intros Hdone k Hk. destruct (Hacc k Hk) as [H0|(i & c & Hc & Hs & _)]; [done|].
  destruct (Hdone c) as [o Ho]; [by eapply list_elem_of_lookup_2|].
  unfold in_section in Hs. by rewrite Ho in Hs.
Qed.

Lemma section_never_leaks_witness :
  held_locks
    (run [Run 0; Run 1; Run 0; Run 0; Expire (7, "1.0"); Run 1; Run 1; Run 1;
          Run 0; Run 0; Run 1; Run 1] (callers racing_requests, empty_world)).2
  = [].
Proof.
  destruct (section_never_leaks_its_lock racing_requests
              [Run 0; Run 1; Run 0; Run 0; Expire (7, "1.0"); Run 1; Run 1; Run 1;
               Run 0; Run 0; Run 1; Run 1] empty_world) as [_ H].
  apply elem_of_nil_inv. intros k Hk. apply H in Hk.
  - by apply elem_of_nil in Hk.
  - intros c Hc. vm_compute in Hc.
    apply elem_of_cons in Hc as [->|Hc]; [by eexists|].
    apply list_elem_of_singleton in Hc as ->. by eexists.
Defined.

Lemma releases_accounted_step (w0 : World) cs (w : World) i c c' w' :
  release_table w0 `prefix_of` release_table w ∧ releases_accounted w0 (cs, w) →
  cs !! i = Some c → caller_steps c w c' w' →
  release_table w0 `prefix_of` release_table w'
  ∧ releases_accounted w0 (<[i:=c']> cs, w').
Proof.
  intros [Hpre Hacc] Hc Hstep.
  pose proof (step_key _ _ _ _ Hstep) as (Horg & Hres & _).
  assert (i < length cs) as Hlen by (by eapply lookup_lt_Some).
  assert (∀ r, r ∈ release_table w →
               r ∈ release_table w0
               ∨ ∃ j cj id, <[i:=c']> cs !! j = Some cj ∧ outcome_of cj = Some (r, true)
                            ∧ r = release_of_request id (Caller.organization cj)
                                    (Caller.result cj)) as Hold.
  { intros r Hr. destruct (Hacc r Hr) as [H0|(j & cj & id & Hj & Ho & Hid)]; [by left|].
    right. simpl in Hj. destruct (decide (j = i)) as [->|Hne].
    - assert (cj = c) as -> by congruence.
      exists i, c', id. split_and!; [by apply list_lookup_insert_eq| |congruence].
      destruct (step_outcome _ _ _ _ Hstep) as [E|[E _]]; congruence.
    - exists j, cj, id. by rewrite list_lookup_insert_ne. }
  destruct (step_table _ _ _ _ Hstep) as [E|(Hat & Hm & E & Ho)].
  - split; [by rewrite E|]. intros r Hr. simpl in *. rewrite E in Hr. by apply Hold.
  - split.
    { etrans; [exact Hpre|]. rewrite E. by eexists. }
    intros r Hr. simpl in *. rewrite E in Hr.
    apply elem_of_app in Hr as [Hr|Hr]; [by apply Hold|].
    apply list_elem_of_singleton in Hr as ->.
    right. exists i, c', (fresh_release_id (release_table w)).
    split_and!; [by apply list_lookup_insert_eq|done|].
    unfold made_by. congruence.
Qed.

Lemma releases_accounted_run requests schedule (w0 : World) :
  release_table w0 `prefix_of` release_table (run schedule (callers requests, w0)).2
  ∧ releases_accounted w0 (run schedule (callers requests, w0)).
Proof.
  set (I := λ s : system, release_table w0 `prefix_of` release_table s.2
                          ∧ releases_accounted w0 s).
  apply (run_preserves I).
  - apply (act_preserves I); unfold I; simpl.
    + intros cs w i c c' w'. apply releases_accounted_step.
    + done.
  - split; [done|]. intros r Hr. by left.
Qed.

(** X7. Interleaved callers only ever add releases, and every release they
    add is owned: the releases stored at the start stay where they are,
    unchanged; every other stored release was inserted by a caller, from
    the fields of that caller's own request, and that caller is told
    [created = true]. *)
Theorem every_new_release_has_its_creator
    (requests : list (Organization.t * Result.t)) (schedule : list action)
    (w0 : World) :
  let s := run schedule (callers requests, w0) in
  release_table w0 `prefix_of` release_table s.2
  ∧ ∀ r, r ∈ release_table s.2 →
         r ∈ release_table w0
         ∨ ∃ i c id, s.1 !! i = Some c ∧ outcome_of c = Some (r, true)
                     ∧ r = release_of_request id (Caller.organization c)
                             (Caller.result c).
Proof. apply releases_accounted_run. Qed.

(** ** Who may see which projects *)

Lemma organization_team_ids_elem (d : Directory) organization tid :
  tid ∈ organization_team_ids d organization
  ↔ ∃ t, t ∈ team_table d ∧ Team.id t = tid
         ∧ Team.organization_id t = Organization.id organization.
Proof.
  unfold organization_team_ids. rewrite list_elem_of_fmap. split.
  - intros (t & -> & [Ho Ht]%list_elem_of_filter). by exists t.
  - intros (t & Ht & <- & Ho). exists t. split; [done|]. by apply list_elem_of_filter.
Qed.

Lemma member_team_ids_elem (d : Directory) user organization tid :
  tid ∈ member_team_ids d user organization
  ↔ ∃ omt om t,
      omt ∈ organizationmemberteam_table d ∧ om ∈ organizationmember_table d
      ∧ t ∈ team_table d
      ∧ OrganizationMemberTeam.team_id omt = tid
      ∧ OrganizationMember.id om = OrganizationMemberTeam.organizationmember_id omt
      ∧ OrganizationMember.user om = Some user
      ∧ Team.id t = tid
      ∧ Team.organization_id t = Organization.id organization.
Proof.
  unfold member_team_ids, member_is_user, team_is_in.
  rewrite list_elem_of_fmap. split.
  - intros (omt & -> & [[Hom Ht] Homt]%list_elem_of_filter).
    apply Exists_exists in Hom as (om & Hom & Hid & Hu).
    apply Exists_exists in Ht as (t & Ht & Htid & Ho).
    by exists omt, om, t.
  - intros (omt & om & t & Homt & Hom & Ht & <- & Hid & Hu & Htid & Ho).
    exists omt. split; [done|]. apply list_elem_of_filter. split; [|done].
    split; apply Exists_exists; [by exists om|by exists t].
Qed.

Lemma filter_sublist_impl {A} (P Q : A → Prop)
    `{!∀ x, Decision (P x), !∀ x, Decision (Q x)} (l : list A) :
  (∀ x, x ∈ l → P x → Q x) → filter P l `sublist_of` filter Q l.
Proof.
  induction l as [|a l IH]; intros Himp; [done|].
  assert (filter P l `sublist_of` filter Q l) as Hrec.
  { apply IH. intros x Hx. apply Himp. by right. }
  destruct (decide (P a)) as [Ha|Ha].
  - rewrite (filter_cons_True P) by done.
    rewrite (filter_cons_True Q) by (apply Himp; [left|done]).
    by apply sublist_skip.
  - rewrite (filter_cons_False P) by done.
    destruct (decide (Q a)).
    + rewrite (filter_cons_True Q) by done. by apply sublist_cons.
    + by rewrite (filter_cons_False Q) by done.
Qed.

(** X8. Every project [get_allowed_projects] returns is on a team of the
    organization asked about, whoever asks and whatever the flags; and, in
    whatever order the rows come, none is returned more often than the
    project table holds it, so no project is listed twice however many
    membership rows lead to its team. *)
Theorem allowed_projects_stay_in_the_organization
    (d : Directory) (request : Request.t) (organization : Organization.t)
    (flags : Flags.t) :
  get_allowed_projects d request organization flags ⊆+ teamproject_table d
  ∧ ∀ p, p ∈ get_allowed_projects d request organization flags →
         ∃ t, t ∈ team_table d ∧ Team.id t = TeamProject.team_id p
              ∧ Team.organization_id t = Organization.id organization.
Proof.
  unfold get_allowed_projects. destruct (Request.user request) as [user|].
  - split; [apply sublist_submseteq, sublist_filter|].
    intros p [Hin _]%list_elem_of_filter.
    destruct (Request.is_superuser request || Flags.allow_joinleave flags).
    + by apply organization_team_ids_elem in Hin.
    + apply member_team_ids_elem in Hin
        as (omt & om & t & _ & _ & Ht & _ & _ & _ & Hid & Ho).
      by exists t.
  - split; [apply submseteq_nil_l|]. by intros p ?%elem_of_nil.
Qed.

(** X9. Privilege only widens the view.  For a superuser, or in an
    organization that lets members join and leave teams freely, every
    signed-in user gets the same list: the projects of all teams of the
    organization.  What a plain member of a closed organization gets is that
    list with rows left out. *)
Theorem privilege_only_widens_the_view
    (d : Directory) (organization : Organization.t) (user user' : nat)
    (is_superuser : bool) (flags : Flags.t) :
  is_superuser || Flags.allow_joinleave flags = true →
  get_allowed_projects d (Request.mk (Some user') is_superuser) organization flags
  = filter (λ p, TeamProject.team_id p ∈ organization_team_ids d organization)
      (teamproject_table d)
  ∧ get_allowed_projects d (Request.mk (Some user) false) organization (Flags.mk false)
    `sublist_of`
    get_allowed_projects d (Request.mk (Some user') is_superuser) organization flags.
Proof.
  intros Hpriv. unfold get_allowed_projects. simpl. rewrite Hpriv.
  split; [done|]. apply filter_sublist_impl.
  intros p _ Hin. apply organization_team_ids_elem.
  apply member_team_ids_elem in Hin
    as (omt & om & t & _ & _ & Ht & _ & _ & _ & Hid & Ho).
  by exists t.
Qed.

Lemma privilege_only_widens_witness :
  get_allowed_projects sample_directory (Request.mk (Some 5) false) acme (Flags.mk false)
  `sublist_of`
  get_allowed_projects sample_directory (Request.mk (Some 6) false) acme (Flags.mk true).
Proof.
  by apply (privilege_only_widens_the_view sample_directory acme 5 6 false (Flags.mk true)).
Defined.

(** X10. An anonymous request gets no project, even when it is flagged as
    superuser or the organization is open.  A signed-in plain member of a
    closed organization gets exactly the projects whose team is a team of
    the organization to which a membership row of one of the user's member
    records points; with no such row the list is empty. *)
Theorem member_sees_the_projects_of_its_teams
    (d : Directory) (organization : Organization.t) (user : nat) :
  (∀ is_superuser flags,
     get_allowed_projects d (Request.mk None is_superuser) organization flags = [])
  ∧ (∀ p,
       p ∈ get_allowed_projects d (Request.mk (Some user) false) organization
             (Flags.mk false)
       ↔ p ∈ teamproject_table d
         ∧ ∃ omt om t,
             omt ∈ organizationmemberteam_table d ∧ om ∈ organizationmember_table d
             ∧ t ∈ team_table d
             ∧ OrganizationMemberTeam.team_id omt = TeamProject.team_id p
             ∧ OrganizationMember.id om
               = OrganizationMemberTeam.organizationmember_id omt
             ∧ OrganizationMember.user om = Some user
             ∧ Team.id t = TeamProject.team_id p
             ∧ Team.organization_id t = Organization.id organization)
  ∧ ((∀ om, om ∈ organizationmember_table d → OrganizationMember.user om ≠ Some user) →
     get_allowed_projects d (Request.mk (Some user) false) organization (Flags.mk false)
     = []).
Proof.
  split_and!.
  - done.
  - intros p. unfold get_allowed_projects. simpl.
    rewrite list_elem_of_filter, member_team_ids_elem. tauto.
  - intros Hnone. apply elem_of_nil_inv. intros p Hp.
    unfold get_allowed_projects in Hp. simpl in Hp.
    apply list_elem_of_filter in Hp as [Hin _].
    apply member_team_ids_elem in Hin as (omt & om & t & _ & Hom & _ & _ & _ & Hu & _).
    by apply (Hnone om).
Qed.

Lemma member_sees_its_teams_witness :
  get_allowed_projects sample_directory (Request.mk (Some 7) false) acme (Flags.mk false)
  = [].
Proof.
  destruct (member_sees_the_projects_of_its_teams sample_directory acme 7) as (_ & _ & H).
  apply H. intros om Hom. unfold sample_directory in Hom. simpl in Hom.
  rewrite !elem_of_cons, elem_of_nil in Hom.
  destruct Hom as [->|[->|[->|[]]]]; discriminate.
Defined.

Example member_of_one_team_sees_its_project :
  TeamProject.project
    <$> get_allowed_projects sample_directory (Request.mk (Some 5) false) acme
          (Flags.mk false)
  = [web]
  ∧ TeamProject.project
      <$> get_allowed_projects sample_directory (Request.mk (Some 5) true) acme
            (Flags.mk false)
    = [web; api].
Proof. by vm_compute. Qed.

(** ** Activities under any outcome *)

Lemma link_all_newly release ps acc (w w' : World) l :
  link_all release ps acc w = (Return l, w') →
  ∃ newly, l = acc ++ newly
           ∧ w' = with_releaseproject_table (λ t, t ++ (link_of release <$> newly)) w
           ∧ ∀ p, p ∈ newly → p ∈ ps ∧ ¬ linked w release p.
Proof.
  revert acc w. induction ps as [|p ps IH]; intros acc w.
  - simpl. unfold mret, M_ret. intros [= <- <-]. exists [].
    split_and!; [by rewrite app_nil_r|by rewrite with_releaseproject_table_nil|].
    by intros q ?%elem_of_nil.
  - rewrite link_all_cons. destruct (link_fault w p) as [e|]; [done|].
    case_decide as Hl.
    + intros (newly & -> & -> & Hnew)%IH.
      exists newly. split_and!; [done..|]. intros q Hq.
      destruct (Hnew q Hq). split; [by right|done].
    + intros (newly & -> & -> & Hnew)%IH.
      exists (p :: newly).
      split_and!; [by rewrite <- app_assoc|by rewrite with_releaseproject_table_app|].
      intros q [->|Hq]%elem_of_cons; [split; [left|tauto]|].
      destruct (Hnew q Hq) as [Hin Hnl]. split; [by right|].
      intros Hlq. apply Hnl. unfold linked in *. simpl. apply elem_of_app. by left.
Qed.

Lemma notify_all_emitted result date_released ps (w w' : World) o :
  notify_all result date_released ps w = (o, w') →
  ∃ emitted,
    activity_table w'
    = activity_table w
      ++ (release_activity (Result.version result) date_released <$> emitted)
    ∧ ∀ p, p ∈ emitted → p ∈ ps.
Proof.
  revert w. induction ps as [|p ps IH]; intros w.
  - simpl. unfold mret, M_ret. intros [= <- <-]. exists [].
    split; [by rewrite app_nil_r|]. by intros q ?%elem_of_nil.
  - rewrite notify_all_cons.
    destruct (decide (Project.id p ∈ notify_faults w)) as [Hf|Hf].
    { rewrite notify_one_fault by done. intros [= <- <-]. exists [p].
      split; [done|]. intros q ->%list_elem_of_singleton. left. }
    rewrite notify_one_ok by done. intros (emitted & -> & Hin)%IH.
    exists (p :: emitted). split; [simpl; by rewrite <- app_assoc|].
    intros q [->|Hq]%elem_of_cons; [left|right; by apply Hin].
Qed.

(** X11. Whatever the outcome, even when linking or a notification fails
    half-way, every activity [post] emits is for a project that this very
    call has linked to the stored release (the link is there afterwards and
    was not there before), and it carries the requested version and the
    release's [date_released], which is set. *)
Theorem activities_are_only_for_links_of_this_call
    (result : Result.t) (organization : Organization.t) (w w' : World)
    (o : outcome Response) :
  post (inr result) organization w = (o, w') →
  ∃ activities,
    activity_table w' = activity_table w ++ activities
    ∧ ∀ a, a ∈ activities →
        ∃ p release date_released,
          stored_release w' (Organization.id organization) (Result.version result)
            = Some release
          ∧ Release.date_released release = Some date_released
          ∧ a = release_activity (Result.version result) date_released p
          ∧ link_of release p ∈ releaseproject_table w'
          ∧ link_of release p ∉ releaseproject_table w.
Proof.
  intros Hpost.
  assert (∀ release (w1 w2 w3 : World) new_projects o3,
            stored_release w1 (Organization.id organization) (Result.version result)
              = Some release →
            releaseproject_table w1 = releaseproject_table w →
            activity_table w1 = activity_table w →
            link_all release (requested_projects w organization result) [] w1
              = (Return new_projects, w2) →
            notify_if_live result release new_projects w2 = (o3, w3) →
            ∃ activities,
              activity_table w3 = activity_table w ++ activities
              ∧ release_table w3 = release_table w1
              ∧ releaseproject_table w3 = releaseproject_table w2
              ∧ ∀ a, a ∈ activities →
                  ∃ p date_released,
                    Release.date_released release = Some date_released
                    ∧ a = release_activity (Result.version result) date_released p
                    ∧ link_of release p ∈ releaseproject_table w2
                    ∧ link_of release p ∉ releaseproject_table w) as Hstage.
  { intros release w1 w2 w3 new_projects o3 Hst Hrp Hact E2 E3.
    apply link_all_newly in E2 as (newly & -> & -> & Hnew). simpl in E3.
    unfold notify_if_live in E3.
    destruct (Release.date_released release) as [date_released|] eqn:Hd.
    - pose proof (notify_all_frame _ _ _ _ _ _ E3) as (acts & evs & Hw3).
      apply notify_all_emitted in E3 as (emitted & Ha & Hin).
      simpl in Ha. rewrite Hact in Ha. eexists. split; [exact Ha|].
      split_and!; [by rewrite Hw3..|].
      intros a (p & -> & Hp)%list_elem_of_fmap.
      exists p, date_released. apply Hin in Hp. simpl in Hp.
      destruct (Hnew p Hp) as [_ Hnl].
      split_and!; [done|done| |].
      + simpl. apply elem_of_app. right. apply list_elem_of_fmap. by exists p.
      + unfold linked in Hnl. by rewrite Hrp in Hnl.
    - unfold mret, M_ret in E3. injection E3 as _ <-. exists [].
      simpl. rewrite app_nil_r. split_and!; [done..|]. by intros a ?%elem_of_nil. }
  post_cases Hpost.
  - exists []. split; [by rewrite app_nil_r|]. by intros a ?%elem_of_nil.
  - apply get_or_create_shape in E1 as (new & f & events & -> & _).
    exists []. split; [by rewrite app_nil_r|]. by intros a ?%elem_of_nil.
  - apply get_or_create_shape in E1 as (new & f & events & -> & _).
    apply link_all_frame in E2 as (added & ->).
    exists []. split; [by rewrite app_nil_r|]. by intros a ?%elem_of_nil.
  - pose proof (get_or_create_shape _ _ _ _ _ E1) as (new & f & events & Hw1 & Hst & _).
    destruct (Hstage release w1 w2 w3 new_projects (Raise e) Hst) as
      (activities & Ha & Hrt & Hrp & Hall); [by subst..|done|done|].
    exists activities. split; [done|]. intros a (p & d & Hd & -> & Hin & Hout)%Hall.
    exists p, release, d. split_and!; try done.
    + unfold stored_release in *. by rewrite Hrt.
    + by rewrite Hrp.
  - pose proof (get_or_create_shape _ _ _ _ _ E1) as (new & f & events & Hw1 & Hst & _).
    destruct (Hstage release w1 w2 w3 new_projects (Return u) Hst) as
      (activities & Ha & Hrt & Hrp & Hall); [by subst..|done|done|].
    rewrite attach_commits_exact in E4. injection E4 as <- <-. simpl.
    exists activities. split; [done|]. intros a (p & d & Hd & -> & Hin & Hout)%Hall.
    exists p, release, d. split_and!; try done.
    + unfold stored_release in *. simpl. by rewrite Hrt.
    + by rewrite Hrp.
Qed.

Lemma activities_are_only_for_links_witness :
  ∃ activities,
    activity_table
      (post (inr (request "2.0" (Some 100%Z) ["web"; "api"])) acme deaf_world).2
    = activity_table deaf_world ++ activities
    ∧ ∀ a, a ∈ activities → Activity.ident a = "2.0".
Proof.
  destruct (activities_are_only_for_links_of_this_call
              (request "2.0" (Some 100%Z) ["web"; "api"]) acme deaf_world _ _
              (surjective_pairing _)) as (activities & Ha & Hall).
  exists activities. split; [exact Ha|].
  by intros a (p & release & d & _ & _ & -> & _)%Hall.
Defined.
